(** * STAFFING: the career-planning store and its org-chart shell

    A shallow embedding of [db.py] (the [Database] class over SQLite) and
    of the data-handling parts of [app.py] (the [CareerPlannerApp]
    callbacks that resolve combo-box text and build the org chart).

    Modelling conventions.
    - A Python [str] is a Rocq [string]; a character is a code point in
      the Latin-1 range, so [String.compare] is the code-point order that
      both Python and SQLite's BINARY collation use.
    - A Python [int] / SQLite INTEGER is a [Z].
    - A value that may be [None] / SQL NULL is an [option].  Python does
      not enforce the annotations of the insert methods, so their
      arguments are options as well: [None] is bound as NULL and meets the
      NOT NULL constraints of the schema.
    - A table is the list of its rows in rowid order; the hidden
      [sqlite_sequence] counters of the AUTOINCREMENT keys are part of the
      database state.
    - An exception is a value of [Exception]; a computation that may
      raise returns a [result].
    - A SQLite connection carries its own [foreign_keys] switch, which
      SQLite turns off for every newly opened connection. *)

From Stdlib Require Import ZArith Lia OrdersEx.
From stdpp Require Import base option list gmap strings pretty sorting.

Open Scope Z_scope.

(** ** Exceptions and results *)

Inductive Constraint :=
  | NotNull (column : string)
  | Unique (column : string)
  | ForeignKey.

Inductive Exception :=
  | IntegrityError (c : Constraint)   (* sqlite3.IntegrityError *)
  | ValueError (msg : string)         (* datetime.date out of range *)
  | KeyError                          (* dict[key] on a missing key *)
  | RecursionError.                   (* interpreter recursion limit *)

Inductive result (A : Type) :=
  | Ok (a : A)
  | Raise (e : Exception).
Arguments Ok {A} a.
Arguments Raise {A} e.

#[global] Instance result_ret : MRet result := λ A a, Ok a.
#[global] Instance result_bind : MBind result := λ A B f m,
  match m with Ok a => f a | Raise e => Raise e end.
#[global] Instance result_fmap : FMap result := λ A B f m,
  match m with Ok a => Ok (f a) | Raise e => Raise e end.

(** ** Rows (the frozen dataclasses of db.py) *)

Module Scenario.
Record t := mk {
  id : Z; name : string; year : Z; quarter : Z;
  start_date : string; end_date : string }.
End Scenario.

Module Position.
Record t := mk {
  id : Z; scenario_id : Z; title : string; department : string;
  parent_position_id : option Z }.
End Position.

Module Employee.
Record t := mk { id : Z; employee_code : string; full_name : string }.
End Employee.

Module Assignment.
Record t := mk {
  id : Z; employee_id : Z; position_id : Z;
  start_date : string; end_date : option string }.
End Assignment.

(** ** The database file *)

Record Database := mkDatabase {
  scenarios : list Scenario.t;
  positions : list Position.t;
  employees : list Employee.t;
  assignments : list Assignment.t;
  (* sqlite_sequence: largest rowid ever handed out, per table *)
  seq_scenarios : Z;
  seq_positions : Z;
  seq_employees : Z;
  seq_assignments : Z }.

(** The file right after [_connect_and_init] created the four tables. *)
Definition empty_database : Database :=
  mkDatabase [] [] [] [] 0 0 0 0.

(** ** Connections and transactions *)

Record Connection := mkConnection { foreign_keys : bool }.

(** [sqlite3.connect(self.path)]: SQLite starts every connection with
    foreign-key enforcement off; [_connect] sets only the row factory. *)
Definition _connect : Connection := mkConnection false.

(** The connection [_connect_and_init] runs its script on: the script's
    first statement is [PRAGMA foreign_keys = ON], which holds for that
    connection alone. *)
Definition init_connection : Connection := mkConnection true.

(** A statement runs against the working copy of the file and either
    returns or raises; what it had changed before raising stays in the
    working copy. *)
Definition Sql (A : Type) : Type := Database → Database * result A.

#[global] Instance Sql_ret : MRet Sql := λ A a db, (db, Ok a).
#[global] Instance Sql_bind : MBind Sql := λ A B f m db,
  match m db with
  | (db', Ok a) => f a db'
  | (db', Raise e) => (db', Raise e)
  end.

(** [with conn: body]: the connection's context manager commits when the
    body returns and rolls back when it raises; the exception goes on to
    the caller. *)
Definition with_connection {A} (conn : Connection)
    (body : Connection → Sql A) : Sql A := λ db,
  match body conn db with
  | (db', Ok a) => (db', Ok a)
  | (_, Raise e) => (db, Raise e)
  end.

(** [conn.executemany(sql, params)] *)
Fixpoint executemany {P} (stmt : P → Sql unit) (params : list P) : Sql unit :=
  match params with
  | [] => mret tt
  | p :: params => stmt p ;; executemany stmt params
  end.

(** ** AUTOINCREMENT keys *)

Definition max_rowid {A} (rowid : A → Z) (rows : list A) : Z :=
  foldr (λ r m, Z.max (rowid r) m) 0 rows.

(** The next key is one more than the largest key the table holds or has
    ever held. *)
Definition new_rowid {A} (rowid : A → Z) (seq : Z) (rows : list A) : Z :=
  Z.max seq (max_rowid rowid rows) + 1.

(** ** datetime.date, as far as seeding uses it *)

Record date := mkDate { date_year : Z; date_month : Z; date_day : Z }.

Definition is_leap (y : Z) : bool :=
  bool_decide (y mod 4 = 0) &&
  (negb (bool_decide (y mod 100 = 0)) || bool_decide (y mod 400 = 0)).

Definition days_in_month (y m : Z) : Z :=
  if bool_decide (m = 2) then (if is_leap y then 29 else 28)
  else if bool_decide (m ∈ [4; 6; 9; 11]) then 30 else 31.

(** [date(year, month, day)] *)
Definition date_new (y m d : Z) : result date :=
  if negb (bool_decide (1 ≤ y ≤ 9999)) then Raise (ValueError "year is out of range")
  else if negb (bool_decide (1 ≤ m ≤ 12)) then Raise (ValueError "month must be in 1..12")
  else if negb (bool_decide (1 ≤ d ≤ days_in_month y m)) then
    Raise (ValueError "day is out of range for month")
  else Ok (mkDate y m d).

(** [d.replace(day=...)] *)
Definition date_replace_day (d : date) (day : Z) : result date :=
  date_new (date_year d) (date_month d) day.

(** ["%0{width}d"] of a non-negative number *)
Definition zero_pad (width : nat) (n : Z) : string :=
  let s := pretty n in
  String.concat "" (replicate (width - String.length s)%nat "0") +:+ s.

(** [d.isoformat()] *)
Definition isoformat (d : date) : string :=
  zero_pad 4 (date_year d) +:+ "-" +:+ zero_pad 2 (date_month d) +:+ "-" +:+
  zero_pad 2 (date_day d).

(** [range(a, b)] *)
Definition range (a b : Z) : list Z := seqZ a (b - a).

(** ** Ordering

    [list.sort] is stable; the ORDER BY of a query is modelled by the same
    stable sort over the rowid-ordered scan. *)

Section stable_sort.
Context {A : Type} (leb : A → A → bool).

Fixpoint insert_sorted (x : A) (l : list A) : list A :=
  match l with
  | [] => [x]
  | y :: l' => if leb x y then x :: l else y :: insert_sorted x l'
  end.

Definition stable_sort (l : list A) : list A := foldr insert_sorted [] l.
End stable_sort.

(** [l.sort(key=key)]: every key is computed first (the first failing key
    raises), then the elements are sorted by their keys. *)
Definition sort_by_key {A K} (leb : K → K → bool) (key : A → result K)
    (l : list A) : result (list A) :=
  keyed ← mapM (λ x, k ← key x; mret (k, x)) l;
  mret ((stable_sort (λ a b, leb a.1 b.1) keyed).*2).

(** Order of the pairs [(department, title)]: by the first component,
    then by the second. *)
Definition key_leb (k1 k2 : string * string) : bool :=
  match String.compare k1.1 k2.1 with
  | Lt => true
  | Eq => String.leb k1.2 k2.2
  | Gt => false
  end.

Definition position_key (p : Position.t) : string * string :=
  (Position.department p, Position.title p).

(** ** Scenario store *)

(** The parameter tuple of the seeding INSERT:
    (name, year, quarter, start_date, end_date). *)
Definition ScenarioParams : Type := string * Z * Z * string * string.

(** Body of the inner loop of [seed_quarter_scenarios]. *)
Definition quarter_params (year quarter : Z) : result ScenarioParams :=
  let start_month := (quarter - 1) * 3 + 1 in
  start ← date_new year start_month 1;
  end_ ← (if bool_decide (start_month + 3 > 12) then date_new (year + 1) 1 1
          else date_new year (start_month + 3) 1);
  end_date ← date_replace_day end_ 1;
  mret ("FY" +:+ pretty year +:+ " Q" +:+ pretty quarter,
        year, quarter, isoformat start, isoformat end_date).

(** The two nested loops: the parameter list, or the first exception. *)
Definition seed_params (current_year years : Z) : result (list ScenarioParams) :=
  mjoin <$> mapM (λ year, mapM (quarter_params year) (range 1 5))
                  (range current_year (current_year + years)).

(** [INSERT OR IGNORE INTO scenarios (name, year, quarter, start_date,
    end_date) VALUES (?, ?, ?, ?, ?)]: a row whose (year, quarter) is taken
    is skipped; the key counter advances either way. *)
Definition insert_or_ignore_scenario (p : ScenarioParams) : Sql unit := λ db,
  let '(name, year, quarter, start_date, end_date) := p in
  let rowid := new_rowid Scenario.id (seq_scenarios db) (scenarios db) in
  let rows :=
    if existsb (λ s, bool_decide (Scenario.year s = year ∧ Scenario.quarter s = quarter))
               (scenarios db)
    then scenarios db
    else scenarios db ++ [Scenario.mk rowid name year quarter start_date end_date] in
  (mkDatabase rows (positions db) (employees db) (assignments db)
              rowid (seq_positions db) (seq_employees db) (seq_assignments db),
   Ok tt).

(** [Database.seed_quarter_scenarios]; [current_year] is what
    [date.today().year] returns. *)
Definition seed_quarter_scenarios (current_year years : Z) : Sql unit := λ db,
  match seed_params current_year years with
  | Raise e => (db, Raise e)
  | Ok params =>
      with_connection _connect (λ conn, executemany insert_or_ignore_scenario params) db
  end.

(** ** Position hierarchy store *)

(** [SELECT ... FROM positions WHERE scenario_id = ? ORDER BY department,
    title] *)
Definition list_positions (scenario_id : Z) (db : Database) : list Position.t :=
  stable_sort (λ p q, key_leb (position_key p) (position_key q))
    (filter (λ p, Position.scenario_id p = scenario_id) (positions db)).

Definition has_scenario (db : Database) (i : Z) : bool :=
  existsb (λ s, bool_decide (Scenario.id s = i)) (scenarios db).
Definition has_position (db : Database) (i : Z) : bool :=
  existsb (λ p, bool_decide (Position.id p = i)) (positions db).
Definition has_employee (db : Database) (i : Z) : bool :=
  existsb (λ e, bool_decide (Employee.id e = i)) (employees db).

(** [INSERT INTO positions (scenario_id, title, department,
    parent_position_id) VALUES (?, ?, ?, ?)].  NOT NULL is checked in
    column order; the two foreign keys are checked only on a connection
    that enforces them (a row may name itself as parent). *)
Definition insert_position (conn : Connection)
    (scenario_id : option Z) (title department : option string)
    (parent_position_id : option Z) : Sql unit := λ db,
  match scenario_id, title, department with
  | None, _, _ => (db, Raise (IntegrityError (NotNull "positions.scenario_id")))
  | Some _, None, _ => (db, Raise (IntegrityError (NotNull "positions.title")))
  | Some _, Some _, None => (db, Raise (IntegrityError (NotNull "positions.department")))
  | Some s, Some t, Some d =>
      let rowid := new_rowid Position.id (seq_positions db) (positions db) in
      if foreign_keys conn &&
         negb (has_scenario db s &&
               match parent_position_id with
               | None => true
               | Some p => has_position db p || bool_decide (p = rowid)
               end)
      then (db, Raise (IntegrityError ForeignKey))
      else
        (mkDatabase (scenarios db)
                    (positions db ++ [Position.mk rowid s t d parent_position_id])
                    (employees db) (assignments db)
                    (seq_scenarios db) rowid (seq_employees db) (seq_assignments db),
         Ok tt)
  end.

(** [Database.add_position] *)
Definition add_position (scenario_id : option Z) (title department : option string)
    (parent_position_id : option Z) : Sql unit :=
  with_connection _connect
    (λ conn, insert_position conn scenario_id title department parent_position_id).

(** ON DELETE SET NULL of [positions.parent_position_id] *)
Definition clear_parent (position_id : Z) (p : Position.t) : Position.t :=
  if bool_decide (Position.parent_position_id p = Some position_id)
  then Position.mk (Position.id p) (Position.scenario_id p) (Position.title p)
                   (Position.department p) None
  else p.

(** [DELETE FROM positions WHERE id = ?].  The row goes; on a connection
    that enforces foreign keys, the rows that referenced it follow their
    ON DELETE clauses: child positions get a NULL parent, assignments of the
    position are deleted. *)
Definition delete_position_stmt (conn : Connection) (position_id : Z) : Sql unit := λ db,
  let kept := filter (λ p, Position.id p ≠ position_id) (positions db) in
  if foreign_keys conn && has_position db position_id then
    (mkDatabase (scenarios db)
                (clear_parent position_id <$> kept)
                (employees db)
                (filter (λ a, Assignment.position_id a ≠ position_id) (assignments db))
                (seq_scenarios db) (seq_positions db) (seq_employees db)
                (seq_assignments db),
     Ok tt)
  else
    (mkDatabase (scenarios db) kept (employees db) (assignments db)
                (seq_scenarios db) (seq_positions db) (seq_employees db)
                (seq_assignments db),
     Ok tt).

(** [Database.delete_position] *)
Definition delete_position (position_id : Z) : Sql unit :=
  with_connection _connect (λ conn, delete_position_stmt conn position_id).

(** ** Employee directory *)

(** [INSERT INTO employees (employee_code, full_name) VALUES (?, ?)] *)
Definition insert_employee (conn : Connection)
    (employee_code full_name : option string) : Sql unit := λ db,
  match employee_code, full_name with
  | None, _ => (db, Raise (IntegrityError (NotNull "employees.employee_code")))
  | Some _, None => (db, Raise (IntegrityError (NotNull "employees.full_name")))
  | Some c, Some n =>
      if existsb (λ e, bool_decide (Employee.employee_code e = c)) (employees db)
      then (db, Raise (IntegrityError (Unique "employees.employee_code")))
      else
        let rowid := new_rowid Employee.id (seq_employees db) (employees db) in
        (mkDatabase (scenarios db) (positions db)
                    (employees db ++ [Employee.mk rowid c n]) (assignments db)
                    (seq_scenarios db) (seq_positions db) rowid (seq_assignments db),
         Ok tt)
  end.

(** [Database.add_employee] *)
Definition add_employee (employee_code full_name : option string) : Sql unit :=
  with_connection _connect (λ conn, insert_employee conn employee_code full_name).

(** [DELETE FROM employees WHERE id = ?], with ON DELETE CASCADE of
    [assignments.employee_id] where foreign keys are enforced. *)
Definition delete_employee_stmt (conn : Connection) (employee_id : Z) : Sql unit := λ db,
  let kept := filter (λ e, Employee.id e ≠ employee_id) (employees db) in
  if foreign_keys conn && has_employee db employee_id then
    (mkDatabase (scenarios db) (positions db) kept
                (filter (λ a, Assignment.employee_id a ≠ employee_id) (assignments db))
                (seq_scenarios db) (seq_positions db) (seq_employees db)
                (seq_assignments db),
     Ok tt)
  else
    (mkDatabase (scenarios db) (positions db) kept (assignments db)
                (seq_scenarios db) (seq_positions db) (seq_employees db)
                (seq_assignments db),
     Ok tt).

(** [Database.delete_employee] *)
Definition delete_employee (employee_id : Z) : Sql unit :=
  with_connection _connect (λ conn, delete_employee_stmt conn employee_id).

(** ** Assignment ledger *)

(** [INSERT INTO assignments (employee_id, position_id, start_date,
    end_date) VALUES (?, ?, ?, ?)] *)
Definition insert_assignment (conn : Connection)
    (employee_id position_id : option Z) (start_date end_date : option string)
    : Sql unit := λ db,
  match employee_id, position_id, start_date with
  | None, _, _ => (db, Raise (IntegrityError (NotNull "assignments.employee_id")))
  | Some _, None, _ => (db, Raise (IntegrityError (NotNull "assignments.position_id")))
  | Some _, Some _, None => (db, Raise (IntegrityError (NotNull "assignments.start_date")))
  | Some e, Some p, Some d =>
      if foreign_keys conn && negb (has_employee db e && has_position db p)
      then (db, Raise (IntegrityError ForeignKey))
      else
        let rowid := new_rowid Assignment.id (seq_assignments db) (assignments db) in
        (mkDatabase (scenarios db) (positions db) (employees db)
                    (assignments db ++ [Assignment.mk rowid e p d end_date])
                    (seq_scenarios db) (seq_positions db) (seq_employees db) rowid,
         Ok tt)
  end.

(** [Database.add_assignment] *)
Definition add_assignment (employee_id position_id : option Z)
    (start_date end_date : option string) : Sql unit :=
  with_connection _connect
    (λ conn, insert_assignment conn employee_id position_id start_date end_date).

(** The rows [WHERE employee_id = ? AND end_date IS NULL] selects; a NULL
    parameter equals nothing. *)
Definition is_open_for (employee_id : option Z) (a : Assignment.t) : bool :=
  bool_decide (employee_id = Some (Assignment.employee_id a)) &&
  bool_decide (Assignment.end_date a = None).

Definition set_end_date (end_date : option string) (a : Assignment.t) : Assignment.t :=
  Assignment.mk (Assignment.id a) (Assignment.employee_id a) (Assignment.position_id a)
                (Assignment.start_date a) end_date.

(** [UPDATE assignments SET end_date = ? WHERE employee_id = ? AND
    end_date IS NULL] *)
Definition close_open_assignments (conn : Connection)
    (end_date : option string) (employee_id : option Z) : Sql unit := λ db,
  (mkDatabase (scenarios db) (positions db) (employees db)
              ((λ a, if is_open_for employee_id a then set_end_date end_date a else a)
                 <$> assignments db)
              (seq_scenarios db) (seq_positions db) (seq_employees db)
              (seq_assignments db),
   Ok tt).

(** [Database.move_employee]: both statements run on one connection,
    inside one [with] block. *)
Definition move_employee_on (conn : Connection)
    (employee_id new_position_id : option Z) (start_date : option string)
    : Sql unit :=
  close_open_assignments conn start_date employee_id ;;
  insert_assignment conn employee_id new_position_id start_date None.

Definition move_employee (employee_id new_position_id : option Z)
    (start_date : option string) : Sql unit :=
  with_connection _connect
    (λ conn, move_employee_on conn employee_id new_position_id start_date).

(** [Database.delete_assignment] *)
Definition delete_assignment (assignment_id : Z) : Sql unit :=
  with_connection _connect (λ conn db,
    (mkDatabase (scenarios db) (positions db) (employees db)
                (filter (λ a, Assignment.id a ≠ assignment_id) (assignments db))
                (seq_scenarios db) (seq_positions db) (seq_employees db)
                (seq_assignments db),
     Ok tt)).

(** ** The shell (app.py): text resolution and the org chart *)

(** [str.isspace] on one character of the Latin-1 range *)
Definition isspace (c : Ascii.ascii) : bool :=
  let n := Ascii.N_of_ascii c in
  bool_decide (n ∈ [9; 10; 11; 12; 13; 28; 29; 30; 31; 32; 133; 160]%N).

Fixpoint lstrip (s : string) : string :=
  match s with
  | EmptyString => EmptyString
  | String c s' => if isspace c then lstrip s' else s
  end.

Fixpoint rstrip (s : string) : string :=
  match s with
  | EmptyString => EmptyString
  | String c s' =>
      match rstrip s' with
      | EmptyString => if isspace c then EmptyString else String c EmptyString
      | r => String c r
      end
  end.

(** [s.strip()] *)
Definition strip (s : string) : string := rstrip (lstrip s).

(** [CareerPlannerApp._combo_value_to_id] *)
Definition _combo_value_to_id (value : string) (mapping : gmap string Z) : option Z :=
  let value := strip value in
  if bool_decide (value = "") then None else mapping !! value.

(** An item of the chart [ttk.Treeview] with the items below it. *)
#[warnings="-register-all"]
Inductive Item := Node (text : string) (children : list Item).

Definition item_text (i : Item) : string := let 'Node text _ := i in text.
Definition item_children (i : Item) : list Item := let 'Node _ children := i in children.

Inductive Dialog := Warning (title message : string).

(** The attributes of [CareerPlannerApp] the callbacks below read or
    write: the selected scenario, the form's string variables, the title
    cache, the chart widget, and the message boxes shown so far. *)
Record App := mkApp {
  scenario_id : option Z;
  position_title : string;
  position_department : string;
  position_parent : string;
  chart_root : string;
  _positions_cache : gmap string Z;
  chart_tree : list Item;
  dialogs : list Dialog }.

Definition full_org_chart : string := "(Full Org Chart)".

(** [{position.title: position.id for position in positions}]: a later
    position takes the entry of an earlier one with the same title. *)
Definition title_cache (positions : list Position.t) : gmap string Z :=
  foldl (λ m p, <[Position.title p := Position.id p]> m) ∅ positions.

(** [CareerPlannerApp._refresh_positions], as far as it touches [App]. *)
Definition _refresh_positions (self : App) (db : Database) : App :=
  match scenario_id self with
  | None => self
  | Some sid =>
      let positions := list_positions sid db in
      mkApp (scenario_id self) (position_title self) (position_department self)
            (position_parent self)
            (if bool_decide (chart_root self = "") then full_org_chart else chart_root self)
            (title_cache positions) (chart_tree self) (dialogs self)
  end.

(** [CareerPlannerApp._add_position] *)
Definition _add_position (self : App) : Sql App := λ db,
  let warn t m :=
    mkApp (scenario_id self) (position_title self) (position_department self)
          (position_parent self) (chart_root self) (_positions_cache self)
          (chart_tree self) (dialogs self ++ [Warning t m]) in
  match scenario_id self with
  | None => (db, Ok (warn "Missing scenario" "Please select a scenario first."))
  | Some sid =>
      let title := strip (position_title self) in
      let department := strip (position_department self) in
      if bool_decide (title = "") || bool_decide (department = "") then
        (db, Ok (warn "Missing data" "Title and department are required."))
      else
        let parent_id := _combo_value_to_id (position_parent self) (_positions_cache self) in
        match add_position (Some sid) (Some title) (Some department) parent_id db with
        | (db', Raise e) => (db', Raise e)
        | (db', Ok _) =>
            (db', Ok (_refresh_positions
                        (mkApp (scenario_id self) "" "" "" (chart_root self)
                               (_positions_cache self) (chart_tree self) (dialogs self))
                        db'))
        end
  end.

(** [{position.id: position for position in positions}] *)
Definition index_by_id (positions : list Position.t) : gmap Z Position.t :=
  foldl (λ m p, <[Position.id p := p]> m) ∅ positions.

(** The loop [children.setdefault(position.parent_position_id,
    []).append(position.id)] *)
Definition group_children (positions : list Position.t) : gmap (option Z) (list Z) :=
  foldl (λ m p,
           let parent := Position.parent_position_id p in
           <[parent := default [] (m !! parent) ++ [Position.id p]]> m)
        ∅ positions.

(** The key of [child_ids.sort]:
    [(position_by_id[pid].department, position_by_id[pid].title)] *)
Definition chart_key (position_by_id : gmap Z Position.t) (pid : Z)
    : result (string * string) :=
  match position_by_id !! pid with
  | Some p => Ok (position_key p)
  | None => Raise KeyError
  end.

(** The loop [for child_ids in children.values(): child_ids.sort(key=...)] *)
Definition sort_children (position_by_id : gmap Z Position.t)
    (children : gmap (option Z) (list Z)) : result (gmap (option Z) (list Z)) :=
  map_fold (λ parent child_ids acc,
              sorted_so_far ← acc;
              child_ids ← sort_by_key key_leb (chart_key position_by_id) child_ids;
              mret (<[parent := child_ids]> sorted_so_far))
           (Ok ∅) children.

(** The label [f"{position.title} ({position.department})"] *)
Definition chart_label (p : Position.t) : string :=
  Position.title p +:+ " (" +:+ Position.department p +:+ ")".

(** [CareerPlannerApp._insert_chart_node]: the item inserted for
    [node_id], with the items inserted below it.  [limit] is the number of
    nested calls the interpreter still allows. *)
Fixpoint _insert_chart_node (limit : nat) (node_id : Z)
    (position_by_id : gmap Z Position.t) (children : gmap (option Z) (list Z))
    : result Item :=
  match limit with
  | O => Raise RecursionError
  | S limit =>
      position ← match position_by_id !! node_id with
                 | Some p => Ok p
                 | None => Raise KeyError
                 end;
      let label := chart_label position in
      items ← mapM (λ child_id, _insert_chart_node limit child_id position_by_id children)
                   (default [] (children !! Some node_id));
      mret (Node label items)
  end.

Definition with_chart_tree (self : App) (items : list Item) : App :=
  mkApp (scenario_id self) (position_title self) (position_department self)
        (position_parent self) (chart_root self) (_positions_cache self)
        items (dialogs self).

(** [CareerPlannerApp._refresh_chart].  When it raises, the exception
    leaves through the Tk callback; the half-filled widget is not
    described. *)
Definition _refresh_chart (limit : nat) (self : App) (db : Database) : result App :=
  match scenario_id self with
  | None => Ok self
  | Some sid =>
      match list_positions sid db with
      | [] => Ok (with_chart_tree self [])
      | positions =>
          let position_by_id := index_by_id positions in
          children ← sort_children position_by_id (group_children positions);
          let root_selection := strip (chart_root self) in
          if negb (bool_decide (root_selection = "")) &&
             negb (bool_decide (root_selection = full_org_chart))
          then
            match _positions_cache self !! root_selection with
            | None => Ok (with_chart_tree self [])
            | Some root_id =>
                item ← _insert_chart_node limit root_id position_by_id children;
                mret (with_chart_tree self [item])
            end
          else
            items ← mapM (λ root_id,
                            _insert_chart_node limit root_id position_by_id children)
                         (default [] (children !! None));
            mret (with_chart_tree self items)
      end
  end.

(** * Vocabulary of the properties *)

(** The unique key of the scenario table. *)
Definition scenario_period (s : Scenario.t) : Z * Z :=
  (Scenario.year s, Scenario.quarter s).

Definition params_period (p : ScenarioParams) : Z * Z :=
  let '(_, year, quarter, _, _) := p in (year, quarter).

(** What step 1 of a move makes of one row. *)
Definition closed_at (employee_id : Z) (d : string) (a : Assignment.t) : Assignment.t :=
  if is_open_for (Some employee_id) a then set_end_date (Some d) a else a.

(** "An open assignment of employee [e]" *)
Definition open_of (e : Z) (a : Assignment.t) : Prop :=
  Assignment.employee_id a = e ∧ Assignment.end_date a = None.

Definition open_of_dec (e : Z) (a : Assignment.t) : Decision (open_of e a) :=
  decide (Assignment.employee_id a = e ∧ Assignment.end_date a = None).
#[local] Existing Instance open_of_dec.

(** Strings in code-point order. *)
Definition string_lt (a b : string) : Prop := String.compare a b = Lt.
Definition string_le (a b : string) : Prop := String.compare a b ≠ Gt.

(** Ascending in department; within one department, ascending in title. *)
Definition key_le (k1 k2 : string * string) : Prop :=
  string_lt k1.1 k2.1 ∨ (k1.1 = k2.1 ∧ string_le k1.2 k2.2).

Definition position_le (p q : Position.t) : Prop :=
  key_le (position_key p) (position_key q).

(** The comparison [list_positions] and the sibling sort run. *)
Definition position_leb (p q : Position.t) : bool :=
  key_leb (position_key p) (position_key q).

(** The positions that name [parent] as their parent, in list order. *)
Definition children_in (ps : list Position.t) (parent : option Z) : list Position.t :=
  filter (λ p, Position.parent_position_id p = parent) ps.

(** The sorted sibling list under [parent]. *)
Definition siblings (ps : list Position.t) (parent : option Z) : list Position.t :=
  stable_sort position_leb (children_in ps parent).

(** The key the sort computes for an id, made total. *)
Definition id_key (position_by_id : gmap Z Position.t) (pid : Z) : string * string :=
  from_option position_key ("", "") (position_by_id !! pid).

Definition sort_ids (position_by_id : gmap Z Position.t) (ids : list Z) : list Z :=
  stable_sort (λ a b, key_leb (id_key position_by_id a) (id_key position_by_id b)) ids.


(** All the labels of a rendered item, the item's own first. *)
Fixpoint item_texts (i : Item) : list string :=
  let 'Node text children := i in text :: flat_map item_texts children.

(** The ids met when walking up from [x] by [parent_position_id], up to a
    position without parent or an id that no position carries. *)
Inductive parent_chain (ps : list Position.t) : Z → list Z → Prop :=
  | chain_top x :
      (∀ p, p ∈ ps → Position.id p = x → Position.parent_position_id p = None) →
      parent_chain ps x []
  | chain_up x p q anc :
      p ∈ ps → Position.id p = x → Position.parent_position_id p = Some q →
      parent_chain ps q anc →
      parent_chain ps x (q :: anc).

(** All the labels in the chart widget. *)
Definition rendered_labels (self : App) : list string :=
  flat_map item_texts (chart_tree self).

(** Every parent reference points to a position with a smaller key, as
    it does when parents are picked among the positions that exist. *)
Definition parents_older (ps : list Position.t) : Prop :=
  ∀ p q, p ∈ ps → Position.parent_position_id p = Some q → q < Position.id p.

(** A small chart to run the shell on. *)
Definition chart_db : Database :=
  mkDatabase
    [Scenario.mk 1 "FY2024 Q1" 2024 1 "2024-01-01" "2024-04-01"]
    [Position.mk 1 1 "CEO" "Executive" None;
     Position.mk 2 1 "CTO" "Technology" (Some 1);
     Position.mk 3 1 "CFO" "Finance" (Some 1);
     Position.mk 4 1 "Developer" "Technology" (Some 2)]
    [] [] 1 4 0 0.

Definition chart_app (root : string) : App :=
  mkApp (Some 1) "" "" "" root (title_cache (list_positions 1 chart_db)) [] [].

(** * The rest of db.py and of the shell's callbacks *)

(** ** Queries *)

(** Order of the pairs [(year, quarter)]. *)
Definition period_leb (a b : Z * Z) : bool :=
  bool_decide (a.1 < b.1) || (bool_decide (a.1 = b.1) && bool_decide (a.2 ≤ b.2)).

(** [SELECT ... FROM scenarios ORDER BY year, quarter] *)
Definition list_scenarios (db : Database) : list Scenario.t :=
  stable_sort (λ s t, period_leb (scenario_period s) (scenario_period t)) (scenarios db).

(** [SELECT ... FROM employees ORDER BY full_name] *)
Definition list_employees (db : Database) : list Employee.t :=
  stable_sort (λ a b, String.leb (Employee.full_name a) (Employee.full_name b))
              (employees db).

(** The rows of [assignments a JOIN positions p ON a.position_id = p.id
    WHERE p.scenario_id = ?]: one per pair of an assignment and a position
    of the scenario that carries the key the assignment names. *)
Definition join_positions (scenario_id : Z) (db : Database) : list Assignment.t :=
  a ← assignments db;
  p ← positions db;
  if bool_decide (Assignment.position_id a = Position.id p ∧
                  Position.scenario_id p = scenario_id)
  then [a] else [].

(** [Database.list_assignments]: the join, [ORDER BY a.start_date DESC] *)
Definition list_assignments (scenario_id : Z) (db : Database) : list Assignment.t :=
  stable_sort (λ a b, String.leb (Assignment.start_date b) (Assignment.start_date a))
              (join_positions scenario_id db).

(** [Database.bulk_positions]: [SELECT id, title ... ORDER BY title] *)
Definition bulk_positions (scenario_id : Z) (db : Database) : list (Z * string) :=
  (λ p, (Position.id p, Position.title p)) <$>
  stable_sort (λ p q, String.leb (Position.title p) (Position.title q))
              (filter (λ p, Position.scenario_id p = scenario_id) (positions db)).

(** [Database.bulk_employees]: [SELECT id, full_name ... ORDER BY full_name] *)
Definition bulk_employees (db : Database) : list (Z * string) :=
  (λ e, (Employee.id e, Employee.full_name e)) <$>
  stable_sort (λ a b, String.leb (Employee.full_name a) (Employee.full_name b))
              (employees db).

(** ** Calls of the store's methods, one after the other *)

Inductive Call :=
  | call_seed (current_year years : Z)
  | call_add_position (scenario_id : option Z) (title department : option string)
                      (parent_position_id : option Z)
  | call_add_employee (employee_code full_name : option string)
  | call_add_assignment (employee_id position_id : option Z)
                        (start_date end_date : option string)
  | call_move_employee (employee_id new_position_id : option Z)
                       (start_date : option string)
  | call_delete_position (position_id : Z)
  | call_delete_employee (employee_id : Z)
  | call_delete_assignment (assignment_id : Z).

Definition run_call (c : Call) : Sql unit :=
  match c with
  | call_seed y n => seed_quarter_scenarios y n
  | call_add_position s t d p => add_position s t d p
  | call_add_employee c n => add_employee c n
  | call_add_assignment e p s d => add_assignment e p s d
  | call_move_employee e p d => move_employee e p d
  | call_delete_position i => delete_position i
  | call_delete_employee i => delete_employee i
  | call_delete_assignment i => delete_assignment i
  end.

(** The file after a series of calls; a call that raises leaves it as it
    was and the series goes on, as when the caller catches the exception. *)
Definition run_calls (calls : list Call) (db : Database) : Database :=
  foldl (λ db c, (run_call c db).1) db calls.

(** ** Employee and assignment callbacks *)

Inductive MessageBox :=
  | ShowWarning (title message : string)
  | ShowError (title message : string) (exc : Exception).

(** The attributes of [CareerPlannerApp] that the employee and assignment
    callbacks read or write, beside those of [App]: the string variables of
    the two forms, the name cache, and the message boxes shown.
    [ShowError t m exc] stands for [showerror(t, f"{m}{exc}")]. *)
Record Forms := mkForms {
  employee_code : string;
  employee_name : string;
  assignment_employee : string;
  assignment_position : string;
  assignment_start : string;
  _employees_cache : gmap string Z;
  message_boxes : list MessageBox }.

(** [{employee.full_name: employee.id for employee in employees}] *)
Definition name_cache (employees : list Employee.t) : gmap string Z :=
  foldl (λ m e, <[Employee.full_name e := Employee.id e]> m) ∅ employees.

(** [CareerPlannerApp._refresh_employees], as far as it touches [Forms]. *)
Definition _refresh_employees (forms : Forms) (db : Database) : Forms :=
  mkForms (employee_code forms) (employee_name forms) (assignment_employee forms)
          (assignment_position forms) (assignment_start forms)
          (name_cache (list_employees db)) (message_boxes forms).

Definition show (forms : Forms) (box : MessageBox) : Forms :=
  mkForms (employee_code forms) (employee_name forms) (assignment_employee forms)
          (assignment_position forms) (assignment_start forms)
          (_employees_cache forms) (message_boxes forms ++ [box]).

(** [CareerPlannerApp._add_employee]: whatever [add_employee] raises is
    caught and shown. *)
Definition _add_employee (forms : Forms) (db : Database) : Database * Forms :=
  let code := strip (employee_code forms) in
  let name := strip (employee_name forms) in
  if bool_decide (code = "") || bool_decide (name = "") then
    (db, show forms (ShowWarning "Missing data" "Employee code and full name are required."))
  else
    match add_employee (Some code) (Some name) db with
    | (db', Raise exc) => (db', show forms (ShowError "Error" "Unable to add employee: " exc))
    | (db', Ok _) =>
        (db', _refresh_employees
                (mkForms "" "" (assignment_employee forms) (assignment_position forms)
                         (assignment_start forms) (_employees_cache forms)
                         (message_boxes forms))
                db')
    end.

(** [not x] for an id that may be [None]: [None] and [0] count as missing. *)
Definition falsy (x : option Z) : bool :=
  match x with
  | None => true
  | Some z => bool_decide (z = 0)
  end.

(** [CareerPlannerApp._move_employee]; the refresh of the assignment
    table that follows touches neither [App] nor [Forms]. *)
Definition _move_employee (self : App) (forms : Forms) : Sql Forms := λ db,
  match scenario_id self with
  | None =>
      (db, Ok (show forms (ShowWarning "Missing scenario" "Please select a scenario first.")))
  | Some _ =>
      let employee_id :=
        _combo_value_to_id (assignment_employee forms) (_employees_cache forms) in
      let position_id :=
        _combo_value_to_id (assignment_position forms) (_positions_cache self) in
      let start_date := strip (assignment_start forms) in
      if falsy employee_id || falsy position_id || bool_decide (start_date = "") then
        (db, Ok (show forms (ShowWarning "Missing data"
                               "Employee, position, and start date are required.")))
      else
        match move_employee employee_id position_id (Some start_date) db with
        | (db', Raise e) => (db', Raise e)
        | (db', Ok _) => (db', Ok forms)
        end
  end.

(** [CareerPlannerApp._delete_position]; [selected] holds the positions
    whose rows are selected, each row's iid being [str(position.id)]. *)
Definition _delete_position (self : App) (selected : list Z) : Sql App := λ db,
  match selected with
  | [] => (db, Ok self)
  | position_id :: _ =>
      match delete_position position_id db with
      | (db', Raise e) => (db', Raise e)
      | (db', Ok _) => (db', Ok (_refresh_positions self db'))
      end
  end.

(** [CareerPlannerApp._delete_employee] *)
Definition _delete_employee (forms : Forms) (selected : list Z) : Sql Forms := λ db,
  match selected with
  | [] => (db, Ok forms)
  | employee_id :: _ =>
      match delete_employee employee_id db with
      | (db', Raise e) => (db', Raise e)
      | (db', Ok _) => (db', Ok (_refresh_employees forms db'))
      end
  end.

(** ** What the tables of the shell show *)

(** A row of the positions table: iid, title, department, "Reports To". *)
Definition position_row (positions : list Position.t) (position : Position.t)
    : Z * string * string * string :=
  (Position.id position, Position.title position, Position.department position,
   (* next((p.title for p in positions if p.id == position.parent_position_id), "") *)
   default ""
     (Position.title <$>
      head (filter (λ p, Some (Position.id p) = Position.parent_position_id position)
                   positions))).

(** The rows [_refresh_positions] inserts, in order. *)
Definition position_rows (scenario_id : Z) (db : Database)
    : list (Z * string * string * string) :=
  let positions := list_positions scenario_id db in
  position_row positions <$> positions.

(** The rows [_refresh_assignments] inserts: iid, employee name, position
    title, start date, end date; a missing name or title and an open end
    date show as the empty string. *)
Definition assignment_rows (scenario_id : Z) (db : Database)
    : list (Z * string * string * string * string) :=
  let assignments := list_assignments scenario_id db in
  let employees : gmap Z string :=
    foldl (λ m e, <[Employee.id e := Employee.full_name e]> m) ∅ (list_employees db) in
  let positions : gmap Z string :=
    foldl (λ m p, <[Position.id p := Position.title p]> m) ∅
          (list_positions scenario_id db) in
  (λ a, (Assignment.id a,
         default "" (employees !! Assignment.employee_id a),
         default "" (positions !! Assignment.position_id a),
         Assignment.start_date a,
         match Assignment.end_date a with
         | Some d => d   (* [end_date or ""]: an empty date is the empty string *)
         | None => ""
         end)) <$> assignments.

(** ** Vocabulary of the further properties *)

(** Keys of one table: pairwise different, at least 1, and not above the
    table's sequence counter. *)
Definition keys_ok {A} (rowid : A → Z) (seq : Z) (rows : list A) : Prop :=
  NoDup (rowid <$> rows) ∧ ∀ r, r ∈ rows → 1 ≤ rowid r ≤ seq.

(** What the schema's PRIMARY KEY and UNIQUE constraints and the
    AUTOINCREMENT counters promise. *)
Definition wf_db (db : Database) : Prop :=
  keys_ok Scenario.id (seq_scenarios db) (scenarios db) ∧
  keys_ok Position.id (seq_positions db) (positions db) ∧
  keys_ok Employee.id (seq_employees db) (employees db) ∧
  keys_ok Assignment.id (seq_assignments db) (assignments db) ∧
  NoDup (scenario_period <$> scenarios db) ∧
  NoDup (Employee.employee_code <$> employees db).

(** "No employee has two open assignments." *)
Definition at_most_one_open (db : Database) : Prop :=
  ∀ e, (length (filter (open_of e) (assignments db)) ≤ 1)%nat.

Definition is_add_assignment (c : Call) : Prop :=
  match c with call_add_assignment _ _ _ _ => True | _ => False end.

(** Each period ends on the day the next one starts. *)
Fixpoint contiguous (l : list ScenarioParams) : Prop :=
  match l with
  | p :: (q :: _) as l' => p.2 = q.1.2 ∧ contiguous l'
  | _ => True
  end.

(** "The position with key [x] hangs, through parent references, under a
    position without parent." *)
Inductive rooted (ps : list Position.t) : Z → Prop :=
  | rooted_top p :
      p ∈ ps → Position.parent_position_id p = None → rooted ps (Position.id p)
  | rooted_under p q :
      p ∈ ps → Position.parent_position_id p = Some q → rooted ps q →
      rooted ps (Position.id p).

(** Strictly earlier period. *)
Definition period_lt (a b : Z * Z) : Prop :=
  a.1 < b.1 ∨ (a.1 = b.1 ∧ a.2 < b.2).


(** The small chart with a directory of two employees and their
    assignments. *)
Definition staff_db : Database :=
  mkDatabase
    (scenarios chart_db) (positions chart_db)
    [Employee.mk 1 "E001" "Ada Lovelace"; Employee.mk 2 "E002" "Grace Hopper"]
    [Assignment.mk 1 1 2 "2024-01-01" (Some "2024-02-01");
     Assignment.mk 2 1 3 "2024-02-01" None;
     Assignment.mk 3 2 4 "2024-01-15" None]
    1 4 2 3.

(** The position form filled for a new position under the CEO. *)
Definition coo_form : App :=
  mkApp (Some 1) " COO " "Operations" "CEO" ""
        (title_cache (list_positions 1 chart_db)) [] [].

(** The assignment form filled for a move of Ada Lovelace. *)
Definition staff_forms : Forms :=
  mkForms "" "" "Ada Lovelace" "CFO" "2024-03-01"
          (name_cache (list_employees staff_db)) [].

(** Between two states of the file: the counters have not gone down, and
    every key of [db'] was a key of [db] or lies above [db]'s counter. *)
Definition keys_from (db db' : Database) : Prop :=
  (seq_positions db ≤ seq_positions db' ∧
   ∀ p, p ∈ positions db' →
        Position.id p ∈ (Position.id <$> positions db) ∨ seq_positions db < Position.id p) ∧
  (seq_employees db ≤ seq_employees db' ∧
   ∀ e, e ∈ employees db' →
        Employee.id e ∈ (Employee.id <$> employees db) ∨ seq_employees db < Employee.id e).

(** The four parameter tuples of one year. *)
Definition year_rows (y : Z) : list ScenarioParams :=
  [ ("FY" +:+ pretty y +:+ " Q1", y, 1, isoformat (mkDate y 1 1), isoformat (mkDate y 4 1));
    ("FY" +:+ pretty y +:+ " Q2", y, 2, isoformat (mkDate y 4 1), isoformat (mkDate y 7 1));
    ("FY" +:+ pretty y +:+ " Q3", y, 3, isoformat (mkDate y 7 1), isoformat (mkDate y 10 1));
    ("FY" +:+ pretty y +:+ " Q4", y, 4, isoformat (mkDate y 10 1),
     isoformat (mkDate (y + 1) 1 1)) ].

Definition year_error : Exception := ValueError "year is out of range".

(** "Assignment [a] names a position of scenario [sid]." *)
Definition placed_in (db : Database) (sid : Z) (a : Assignment.t) : Prop :=
  Exists (λ p, Assignment.position_id a = Position.id p ∧ Position.scenario_id p = sid)
         (positions db).

Definition placed_in_dec db sid a : Decision (placed_in db sid a) :=
  Exists_dec _ (positions db).
#[local] Existing Instance placed_in_dec.

(** * Properties *)

(** ** Transactions *)

Lemma with_connection_commit {A} conn (body : Connection → Sql A) db db' a :
  body conn db = (db', Ok a) → with_connection conn body db = (db', Ok a).
Proof. unfold with_connection. by intros ->. Qed.

Lemma with_connection_rollback {A} conn (body : Connection → Sql A) db db' e :
  body conn db = (db', Raise e) → with_connection conn body db = (db, Raise e).
Proof. unfold with_connection. by intros ->. Qed.

Lemma with_connection_cases {A} conn (body : Connection → Sql A) db :
  (∃ db' a, body conn db = (db', Ok a) ∧ with_connection conn body db = (db', Ok a)) ∨
  (∃ db' e, body conn db = (db', Raise e) ∧ with_connection conn body db = (db, Raise e)).
Proof.
  unfold with_connection.
  destruct (body conn db) as [db' [a|e]]; [left|right]; eauto.
Qed.

(** ** Seeding *)

Lemma period_taken_spec (rows : list Scenario.t) year quarter :
  existsb (λ s, bool_decide (Scenario.year s = year ∧ Scenario.quarter s = quarter)) rows = true
  ↔ (year, quarter) ∈ (scenario_period <$> rows).
Proof.
  rewrite existsb_exists, list_elem_of_fmap. unfold scenario_period.
  split.
  - intros (s & Hs & Hk). apply bool_decide_eq_true in Hk as [<- <-].
    exists s. split; [done|]. by apply list_elem_of_In.
  - intros (s & [= -> ->] & Hs). exists s.
    split; [by apply list_elem_of_In|]. by apply bool_decide_eq_true.
Qed.

(** One seeding INSERT never raises, touches the scenario table only, and
    either leaves it alone (period taken) or appends one row (period
    free). *)
Lemma insert_or_ignore_scenario_spec p db :
  ∃ db',
    insert_or_ignore_scenario p db = (db', Ok tt) ∧
    positions db' = positions db ∧ employees db' = employees db ∧
    assignments db' = assignments db ∧
    (scenarios db' = scenarios db ∧ params_period p ∈ (scenario_period <$> scenarios db) ∨
     ∃ s, scenarios db' = scenarios db ++ [s] ∧ scenario_period s = params_period p ∧
          params_period p ∉ (scenario_period <$> scenarios db)).
Proof.
  destruct p as [[[[name year] quarter] start_date] end_date].
  unfold insert_or_ignore_scenario, params_period.
  destruct (existsb _ (scenarios db)) eqn:Htaken; eexists; (split; [reflexivity|]); simpl;
    repeat split.
  - left. split; [done|]. by apply period_taken_spec.
  - right. eexists. split; [reflexivity|]. split; [done|].
    intros Hin. apply period_taken_spec in Hin. congruence.
Qed.

(** The whole batch: rows are only appended, the appended rows have
    pairwise different periods that were free before, and afterwards every
    period of the batch is in the table. *)
Lemma executemany_insert_or_ignore_spec params : ∀ db,
  ∃ db' added,
    executemany insert_or_ignore_scenario params db = (db', Ok tt) ∧
    positions db' = positions db ∧ employees db' = employees db ∧
    assignments db' = assignments db ∧
    scenarios db' = scenarios db ++ added ∧
    NoDup (scenario_period <$> added) ∧
    (∀ s, s ∈ added → scenario_period s ∉ (scenario_period <$> scenarios db)) ∧
    (∀ s, s ∈ added → scenario_period s ∈ (params_period <$> params)) ∧
    (∀ p, p ∈ params → params_period p ∈ (scenario_period <$> scenarios db')).
Proof.
  induction params as [|p params IH]; intros db.
  - exists db, []. simpl. rewrite app_nil_r.
    repeat split; try done; [constructor | by intros ? ?%elem_of_nil ..].
  - destruct (insert_or_ignore_scenario_spec p db)
      as (db1 & Hrun & Hpos & Hemp & Hasg & Hrows).
    destruct (IH db1) as (db2 & added & Hrun2 & Hpos2 & Hemp2 & Hasg2 & Hrows2 & Hnd & Hfree & Hfrom & Hall).
    assert (Hexec : executemany insert_or_ignore_scenario (p :: params) db = (db2, Ok tt)).
    { simpl. unfold mbind, Sql_bind. by rewrite Hrun. }
    destruct Hrows as [[Hsame Htaken] | (s & Happ & Hs & Hfree1)].
    + exists db2, added. rewrite Hexec, Hrows2, Hsame in *.
      repeat split; try congruence; try done.
      * intros s' Hs'. rewrite fmap_cons. right. by apply Hfrom.
      * intros p' [->|Hp']%elem_of_cons; [|by apply Hall].
        rewrite fmap_app. apply elem_of_app. by left.
    + exists db2, (s :: added). rewrite Hexec, Hrows2, Happ in *.
      repeat split; try congruence.
      * by rewrite <- app_assoc.
      * rewrite fmap_cons. constructor; [|done].
        intros Hin. apply list_elem_of_fmap in Hin as (s' & Heq & Hs').
        apply (Hfree s' Hs'). rewrite <- Heq, fmap_app. apply elem_of_app. right.
        rewrite fmap_cons. by left.
      * intros s' [->|Hs']%elem_of_cons; [by rewrite Hs|].
        intros Hin. apply (Hfree s' Hs'). rewrite fmap_app. apply elem_of_app. by left.
      * intros s' [->|Hs']%elem_of_cons; rewrite fmap_cons; [rewrite Hs; by left|].
        right. by apply Hfrom.
      * intros p' [->|Hp']%elem_of_cons; [|by apply Hall].
        rewrite <- app_assoc, !fmap_app. apply elem_of_app. right. apply elem_of_app. left.
        rewrite <- Hs. simpl. by left.
Qed.

(** Seeding either raises before it touches the file, or runs the whole
    batch and commits. *)
Lemma seed_quarter_scenarios_cases current_year years db :
  (∃ e, seed_params current_year years = Raise e ∧
        seed_quarter_scenarios current_year years db = (db, Raise e)) ∨
  (∃ params, seed_params current_year years = Ok params ∧
        seed_quarter_scenarios current_year years db =
          executemany insert_or_ignore_scenario params db).
Proof.
  unfold seed_quarter_scenarios.
  destruct (seed_params current_year years) as [params|e]; [right|left; eauto].
  exists params. split; [done|].
  destruct (executemany_insert_or_ignore_spec params db) as (db' & ? & Hrun & _).
  rewrite Hrun. by apply with_connection_commit.
Qed.

(** C5. Seeding is idempotent: seeding twice in the same year leaves the
    same scenario table, with the same outcome, as seeding once; and one
    seeding only appends rows, whose (year, quarter) periods are pairwise
    different and were not in the table before, so a scenario that was
    there is neither duplicated nor overwritten. *)
Theorem seed_quarter_scenarios_idempotent (current_year years : Z) (db : Database) :
  let once := seed_quarter_scenarios current_year years db in
  let twice := seed_quarter_scenarios current_year years once.1 in
  scenarios twice.1 = scenarios once.1 ∧ twice.2 = once.2 ∧
  ∃ added,
    scenarios once.1 = scenarios db ++ added ∧
    NoDup (scenario_period <$> added) ∧
    ∀ s, s ∈ added → scenario_period s ∉ (scenario_period <$> scenarios db).
Proof.
  intros once twice. subst twice once.
  destruct (seed_quarter_scenarios_cases current_year years db)
    as [(e & Hp & ->) | (params & Hp & ->)].
  - simpl.
    destruct (seed_quarter_scenarios_cases current_year years db)
      as [(e' & Hp' & ->) | (params & Hp' & _)]; [|congruence].
    simpl. repeat split; [congruence|].
    exists []. rewrite app_nil_r. repeat split; [constructor|by intros ? ?%elem_of_nil].
  - destruct (executemany_insert_or_ignore_spec params db)
      as (db1 & added & -> & _ & _ & _ & Hrows & Hnd & Hfree & _ & Hall).
    simpl.
    destruct (seed_quarter_scenarios_cases current_year years db1)
      as [(e' & Hp' & _) | (params' & Hp' & ->)]; [congruence|].
    assert (params' = params) as -> by congruence.
    destruct (executemany_insert_or_ignore_spec params db1)
      as (db2 & added2 & -> & _ & _ & _ & Hrows2 & _ & Hfree2 & Hfrom2 & _).
    simpl. split; [|split; [done|by exists added]].
    destruct added2 as [|s added2]; [by rewrite Hrows2, app_nil_r|].
    exfalso. apply (Hfree2 s); [by left|].
    assert (Hin : scenario_period s ∈ (params_period <$> params)) by (apply Hfrom2; by left).
    apply list_elem_of_fmap in Hin as (p & -> & Hp''). by apply Hall.
Qed.

(** C6. Seeding one year in 2024 into a store without scenarios yields
    exactly FY2024 Q1 to Q4, each running from the first day of the
    quarter to the first day of the month after it. *)
Theorem seed_one_year_2024 (db : Database) :
  scenarios db = [] →
  ∃ db',
    seed_quarter_scenarios 2024 1 db = (db', Ok tt) ∧
    (λ s, (Scenario.name s, Scenario.year s, Scenario.quarter s,
           Scenario.start_date s, Scenario.end_date s)) <$> scenarios db' =
      [ ("FY2024 Q1", 2024, 1, "2024-01-01", "2024-04-01");
        ("FY2024 Q2", 2024, 2, "2024-04-01", "2024-07-01");
        ("FY2024 Q3", 2024, 3, "2024-07-01", "2024-10-01");
        ("FY2024 Q4", 2024, 4, "2024-10-01", "2025-01-01") ].
Proof.
  destruct db as [scn pos emp asg s1 s2 s3 s4]. simpl. intros ->.
  eexists. split; reflexivity.
Qed.

Lemma seed_one_year_2024_initial :
  ∃ db',
    seed_quarter_scenarios 2024 1 empty_database = (db', Ok tt) ∧
    (λ s, (Scenario.name s, Scenario.year s, Scenario.quarter s,
           Scenario.start_date s, Scenario.end_date s)) <$> scenarios db' =
      [ ("FY2024 Q1", 2024, 1, "2024-01-01", "2024-04-01");
        ("FY2024 Q2", 2024, 2, "2024-04-01", "2024-07-01");
        ("FY2024 Q3", 2024, 3, "2024-07-01", "2024-10-01");
        ("FY2024 Q4", 2024, 4, "2024-10-01", "2025-01-01") ].
Proof. apply (seed_one_year_2024 empty_database). reflexivity. Defined.

(** ** Employee directory *)

Lemma code_taken_spec (rows : list Employee.t) (c : string) :
  existsb (λ e, bool_decide (Employee.employee_code e = c)) rows = true
  ↔ c ∈ (Employee.employee_code <$> rows).
Proof.
  rewrite existsb_exists, list_elem_of_fmap. split.
  - intros (e & He & Hc). apply bool_decide_eq_true in Hc.
    exists e. split; [done|]. by apply list_elem_of_In.
  - intros (e & -> & He). exists e.
    split; [by apply list_elem_of_In|]. by apply bool_decide_eq_true.
Qed.

(** C9. Adding an employee under a code the directory already holds
    raises an integrity error (the UNIQUE violation, whenever a name was
    given at all) to the caller and leaves the whole file as it was. *)
Theorem add_employee_duplicate_code (db : Database) (c : string)
    (full_name : option string) :
  c ∈ (Employee.employee_code <$> employees db) →
  add_employee (Some c) full_name db =
    (db, Raise (IntegrityError
                  match full_name with
                  | Some _ => Unique "employees.employee_code"
                  | None => NotNull "employees.full_name"
                  end)).
Proof.
  intros Hc%code_taken_spec.
  unfold add_employee, with_connection, insert_employee.
  destruct full_name; [rewrite Hc|]; reflexivity.
Qed.

Lemma add_employee_duplicate_code_example :
  let db := mkDatabase [] [] [Employee.mk 1 "E001" "Ada Lovelace"] [] 0 0 1 0 in
  add_employee (Some "E001") (Some "Grace Hopper") db =
    (db, Raise (IntegrityError (Unique "employees.employee_code"))).
Proof.
  apply (add_employee_duplicate_code
           (mkDatabase [] [] [Employee.mk 1 "E001" "Ada Lovelace"] [] 0 0 1 0)
           "E001" (Some "Grace Hopper")).
  vm_compute. apply list_elem_of_here.
Defined.

(** ** Assignment ledger *)

Lemma is_open_for_spec e a : is_open_for (Some e) a = true ↔ open_of e a.
Proof.
  unfold is_open_for, open_of.
  rewrite andb_true_iff, !bool_decide_eq_true.
  split; (intros [He Hd]; split; [congruence|done]).
Qed.

Lemma closed_at_not_open e d a : ¬ open_of e (closed_at e d a).
Proof.
  unfold closed_at. destruct (is_open_for (Some e) a) eqn:Ho.
  - unfold open_of. simpl. by intros [_ ?].
  - intros Ho'%is_open_for_spec. congruence.
Qed.

Lemma filter_open_closed e d (rows : list Assignment.t) :
  filter (open_of e) (closed_at e d <$> rows) = [].
Proof.
  induction rows as [|a rows IH]; [done|].
  rewrite fmap_cons, filter_cons_False; [done|apply closed_at_not_open].
Qed.

(** A well-typed move always goes through; its effect on the table. *)
Lemma move_employee_run (e p : Z) (d : string) (db : Database) :
  move_employee (Some e) (Some p) (Some d) db =
    (mkDatabase (scenarios db) (positions db) (employees db)
       ((closed_at e d <$> assignments db) ++
        [Assignment.mk
           (new_rowid Assignment.id (seq_assignments db) (closed_at e d <$> assignments db))
           e p d None])
       (seq_scenarios db) (seq_positions db) (seq_employees db)
       (new_rowid Assignment.id (seq_assignments db) (closed_at e d <$> assignments db)),
     Ok tt).
Proof. reflexivity. Qed.

Lemma max_rowid_bound {A} (rowid : A → Z) (rows : list A) (r : A) :
  r ∈ rows → rowid r ≤ max_rowid rowid rows.
Proof.
  induction 1 as [r rows|r r' rows Hr IH]; simpl; lia.
Qed.

Lemma new_rowid_fresh {A} (rowid : A → Z) (seq : Z) (rows : list A) :
  new_rowid rowid seq rows ∉ (rowid <$> rows).
Proof.
  intros (r & Heq & Hr)%list_elem_of_fmap.
  apply (max_rowid_bound rowid) in Hr. unfold new_rowid in Heq. lia.
Qed.

Lemma closed_at_id e d a : Assignment.id (closed_at e d a) = Assignment.id a.
Proof. unfold closed_at. by destruct (is_open_for _ _). Qed.

(** C1. A move of employee [e] to position [p] from date [d] completes;
    afterwards the only open assignment of [e] is the row just inserted,
    (e, p, d, NULL) under a key no row had; every assignment of [e] that
    was open is now closed at [d], and all other rows are as they were.
    Two moves in a row leave one open assignment, at the second position,
    and the row of the first move closed at the second date. *)
Theorem move_employee_single_open (db : Database) (e p : Z) (d : string) :
  (∃ db' new,
     move_employee (Some e) (Some p) (Some d) db = (db', Ok tt) ∧
     filter (open_of e) (assignments db') = [new] ∧
     Assignment.employee_id new = e ∧ Assignment.position_id new = p ∧
     Assignment.start_date new = d ∧ Assignment.end_date new = None ∧
     (Assignment.id new ∉ (Assignment.id <$> assignments db)) ∧
     assignments db' = (closed_at e d <$> assignments db) ++ [new] ∧
     (∀ a, a ∈ assignments db → open_of e a →
           set_end_date (Some d) a ∈ assignments db') ∧
     (∀ a, a ∈ assignments db → ¬ open_of e a → a ∈ assignments db')) ∧
  (∀ p2 : Z,
   ∃ db1 db2 first second,
     move_employee (Some e) (Some p) (Some "2024-01-01") db = (db1, Ok tt) ∧
     move_employee (Some e) (Some p2) (Some "2024-04-01") db1 = (db2, Ok tt) ∧
     filter (open_of e) (assignments db1) = [first] ∧
     filter (open_of e) (assignments db2) = [second] ∧
     Assignment.position_id second = p2 ∧
     set_end_date (Some "2024-04-01") first ∈ assignments db2).
Proof.
  assert (Hone : ∀ db p d, ∃ db' new,
     move_employee (Some e) (Some p) (Some d) db = (db', Ok tt) ∧
     filter (open_of e) (assignments db') = [new] ∧
     Assignment.employee_id new = e ∧ Assignment.position_id new = p ∧
     Assignment.start_date new = d ∧ Assignment.end_date new = None ∧
     (Assignment.id new ∉ (Assignment.id <$> assignments db)) ∧
     assignments db' = (closed_at e d <$> assignments db) ++ [new] ∧
     (∀ a, a ∈ assignments db → open_of e a →
           set_end_date (Some d) a ∈ assignments db') ∧
     (∀ a, a ∈ assignments db → ¬ open_of e a → a ∈ assignments db')).
  { clear. intros db p d. eexists _, _. split; [apply move_employee_run|]. simpl.
    repeat split; try reflexivity; simpl.
    - rewrite filter_app, filter_open_closed. simpl.
      rewrite filter_cons_True; [done|by split].
    - pose proof (new_rowid_fresh Assignment.id (seq_assignments db)
                    (closed_at e d <$> assignments db)) as Hfresh.
      rewrite <- list_fmap_compose in Hfresh.
      rewrite (list_fmap_ext _ Assignment.id) in Hfresh; [exact Hfresh|].
      intros ? a _. simpl. apply closed_at_id.
    - intros a Ha Ho. apply elem_of_app. left.
      apply list_elem_of_fmap. exists a. split; [|done].
      unfold closed_at. apply is_open_for_spec in Ho. by rewrite Ho.
    - intros a Ha Ho. apply elem_of_app. left.
      apply list_elem_of_fmap. exists a. split; [|done].
      unfold closed_at. destruct (is_open_for (Some e) a) eqn:Ho'; [|done].
      by apply is_open_for_spec in Ho'. }
  split; [apply Hone|]. intros p2.
  destruct (Hone db p "2024-01-01") as (db1 & first & Hrun1 & Hopen1 & _).
  destruct (Hone db1 p2 "2024-04-01")
    as (db2 & second & Hrun2 & Hopen2 & _ & Hp2 & _ & _ & _ & _ & Hclosed & _).
  exists db1, db2, first, second. repeat split; try done.
  assert (Hin : first ∈ filter (open_of e) (assignments db1))
    by (rewrite Hopen1; apply list_elem_of_here).
  apply list_elem_of_filter in Hin as [Ho Hin]. by apply Hclosed.
Qed.

(** On any connection, the two statements of a move either both succeed,
    or the first succeeds on the working copy and the second raises
    without changing it further. *)
Lemma move_employee_on_cases conn (employee_id new_position_id : option Z)
    (start_date : option string) (db : Database) :
  ∃ db1,
    close_open_assignments conn start_date employee_id db = (db1, Ok tt) ∧
    ((∃ exn,
        insert_assignment conn employee_id new_position_id start_date None db1
          = (db1, Raise exn) ∧
        move_employee_on conn employee_id new_position_id start_date db
          = (db1, Raise exn)) ∨
     (∃ e p d,
        employee_id = Some e ∧ new_position_id = Some p ∧ start_date = Some d ∧
        move_employee_on conn employee_id new_position_id start_date db =
          (mkDatabase (scenarios db) (positions db) (employees db)
             (assignments db1 ++
              [Assignment.mk
                 (new_rowid Assignment.id (seq_assignments db) (assignments db1))
                 e p d None])
             (seq_scenarios db) (seq_positions db) (seq_employees db)
             (new_rowid Assignment.id (seq_assignments db) (assignments db1)),
           Ok tt))).
Proof.
  eexists. split; [reflexivity|].
  unfold move_employee_on, mbind, Sql_bind, close_open_assignments, insert_assignment.
  destruct employee_id as [e|], new_position_id as [p|], start_date as [d|]; simpl;
    try (left; eexists; split; reflexivity).
  match goal with |- context [if ?b then _ else _] => destruct b end.
  - left. eexists. split; reflexivity.
  - right. exists e, p, d. repeat split.
Qed.

(** C2. A move is atomic.  Either both steps take effect, and the table
    then holds every formerly open assignment of the employee closed at the
    start date plus the new open row; or the second step raised after the
    first had run on the working copy, the exception reaches the caller,
    and the file is exactly what it was before the call. *)
Theorem move_employee_atomic (db : Database) (employee_id new_position_id : option Z)
    (start_date : option string) :
  (∃ db' e p d,
     employee_id = Some e ∧ new_position_id = Some p ∧ start_date = Some d ∧
     move_employee employee_id new_position_id start_date db = (db', Ok tt) ∧
     assignments db' =
       (closed_at e d <$> assignments db) ++
       [Assignment.mk
          (new_rowid Assignment.id (seq_assignments db) (closed_at e d <$> assignments db))
          e p d None]) ∨
  (∃ db1 exn,
     close_open_assignments _connect start_date employee_id db = (db1, Ok tt) ∧
     insert_assignment _connect employee_id new_position_id start_date None db1
       = (db1, Raise exn) ∧
     move_employee employee_id new_position_id start_date db = (db, Raise exn)).
Proof.
  destruct (move_employee_on_cases _connect employee_id new_position_id start_date db)
    as (db1 & Hclose & [(exn & Hins & Hrun) | (e & p & d & -> & -> & -> & Hrun)]).
  - right. exists db1, exn. repeat split; [done..|].
    unfold move_employee. by apply with_connection_rollback with db1.
  - left. injection Hclose as <-. eexists _, e, p, d.
    do 3 (split; [done|]). split.
    + unfold move_employee. apply with_connection_commit, Hrun.
    + reflexivity.
Qed.

(** A move to a NULL position: step 1 closes the open row on the working
    copy, step 2 violates NOT NULL, and the file is left untouched. *)
Example move_employee_rolls_back :
  let db := mkDatabase [] [] [] [Assignment.mk 1 7 3 "2023-07-01" None] 0 0 0 1 in
  (close_open_assignments _connect (Some "2024-01-01") (Some 7) db).1 ≠ db ∧
  move_employee (Some 7) None (Some "2024-01-01") db =
    (db, Raise (IntegrityError (NotNull "assignments.position_id"))).
Proof. split; [discriminate|reflexivity]. Qed.

(** ** Deletes and the foreign keys *)

(** What a delete through [Database.delete_position] does: the row goes,
    nothing else changes. *)
Lemma delete_position_run (position_id : Z) (db : Database) :
  delete_position position_id db =
    (mkDatabase (scenarios db)
                (filter (λ p, Position.id p ≠ position_id) (positions db))
                (employees db) (assignments db)
                (seq_scenarios db) (seq_positions db) (seq_employees db)
                (seq_assignments db),
     Ok tt).
Proof. reflexivity. Qed.

(** C3 (defect). A store seeded for 2024, then given a position and a
    second one reporting to it.  Deleting the first through
    [Database.delete_position]: the parent row goes, and the child row
    stays as it was, still naming the deleted row as its parent. *)
Theorem delete_position_leaves_parent_reference :
  let db0 := (seed_quarter_scenarios 2024 1 empty_database).1 in
  let db1 := (add_position (Some 1) (Some "CEO") (Some "Executive") None db0).1 in
  let db2 := (add_position (Some 1) (Some "CTO") (Some "Technology") (Some 1) db1).1 in
  positions db2 = [Position.mk 1 1 "CEO" "Executive" None;
                   Position.mk 2 1 "CTO" "Technology" (Some 1)] ∧
  ∃ db', delete_position 1 db2 = (db', Ok tt) ∧
         positions db' = [Position.mk 2 1 "CTO" "Technology" (Some 1)].
Proof. split; [reflexivity|]. eexists. split; reflexivity. Qed.

(** The same holds for every parent and child: the child keeps the
    reference. *)
Lemma delete_position_child_unchanged (db : Database) (x child : Position.t) :
  child ∈ positions db →
  Position.id child ≠ Position.id x →
  Position.parent_position_id child = Some (Position.id x) →
  child ∈ positions (delete_position (Position.id x) db).1 ∧
  Position.parent_position_id child ≠ None.
Proof.
  intros Hin Hne Hpar. rewrite delete_position_run. simpl. split; [|congruence].
  by apply list_elem_of_filter.
Qed.

(** The schema's ON DELETE SET NULL does what the specification says on a
    connection that enforces foreign keys, such as the one the tables were
    created on: the row goes, every child stays with a NULL parent and its
    other fields unchanged. *)
Lemma delete_position_stmt_enforced (db : Database) (x : Position.t) :
  x ∈ positions db →
  ∃ db',
    delete_position_stmt init_connection (Position.id x) db = (db', Ok tt) ∧
    (Position.id x ∉ (Position.id <$> positions db')) ∧
    ∀ child, child ∈ positions db →
      Position.id child ≠ Position.id x →
      Position.parent_position_id child = Some (Position.id x) →
      Position.mk (Position.id child) (Position.scenario_id child)
                  (Position.title child) (Position.department child) None
        ∈ positions db'.
Proof.
  intros Hx. unfold delete_position_stmt. simpl.
  assert (has_position db (Position.id x) = true) as ->.
  { unfold has_position. apply existsb_exists. exists x.
    split; [by apply list_elem_of_In|by apply bool_decide_eq_true]. }
  eexists. split; [reflexivity|]. simpl. split.
  - intros (p & Hid & Hp)%list_elem_of_fmap.
    apply list_elem_of_fmap in Hp as (q & -> & Hq).
    apply list_elem_of_filter in Hq as [Hq _].
    apply Hq. rewrite Hid. unfold clear_parent. by case_bool_decide.
  - intros child Hin Hne Hpar. apply list_elem_of_fmap. exists child. split.
    + unfold clear_parent. by rewrite bool_decide_eq_true_2.
    + by apply list_elem_of_filter.
Qed.

Lemma delete_employee_run (employee_id : Z) (db : Database) :
  delete_employee employee_id db =
    (mkDatabase (scenarios db) (positions db)
                (filter (λ e, Employee.id e ≠ employee_id) (employees db))
                (assignments db)
                (seq_scenarios db) (seq_positions db) (seq_employees db)
                (seq_assignments db),
     Ok tt).
Proof. reflexivity. Qed.

(** C4 (defect). A store seeded for 2024, then given a position and an
    employee who is moved to it.  Deleting the employee through
    [Database.delete_employee]: the employee row goes and the assignment
    row stays. *)
Theorem delete_employee_leaves_assignments :
  let db0 := (seed_quarter_scenarios 2024 1 empty_database).1 in
  let db1 := (add_position (Some 1) (Some "CEO") (Some "Executive") None db0).1 in
  let db2 := (add_employee (Some "E001") (Some "Ada Lovelace") db1).1 in
  let db3 := (move_employee (Some 1) (Some 1) (Some "2024-01-01") db2).1 in
  employees db3 = [Employee.mk 1 "E001" "Ada Lovelace"] ∧
  assignments db3 = [Assignment.mk 1 1 1 "2024-01-01" None] ∧
  ∃ db', delete_employee 1 db3 = (db', Ok tt) ∧
         employees db' = [] ∧
         assignments db' = [Assignment.mk 1 1 1 "2024-01-01" None].
Proof. split; [reflexivity|]. split; [reflexivity|]. eexists. repeat split. Qed.

(** No delete through [Database.delete_employee] ever touches the
    assignment table. *)
Lemma delete_employee_assignments_unchanged (employee_id : Z) (db : Database) :
  assignments (delete_employee employee_id db).1 = assignments db.
Proof. by rewrite delete_employee_run. Qed.

(** The schema's ON DELETE CASCADE does what the specification says on a
    connection that enforces foreign keys: the employee and all their
    assignments go, the assignments of everyone else stay. *)
Lemma delete_employee_stmt_enforced (db : Database) (e : Employee.t) :
  e ∈ employees db →
  ∃ db',
    delete_employee_stmt init_connection (Employee.id e) db = (db', Ok tt) ∧
    (Employee.id e ∉ (Employee.id <$> employees db')) ∧
    assignments db' =
      filter (λ a, Assignment.employee_id a ≠ Employee.id e) (assignments db).
Proof.
  intros He. unfold delete_employee_stmt. simpl.
  assert (has_employee db (Employee.id e) = true) as ->.
  { unfold has_employee. apply existsb_exists. exists e.
    split; [by apply list_elem_of_In|by apply bool_decide_eq_true]. }
  eexists. split; [reflexivity|]. simpl. split; [|done].
  intros (p & Hid & Hp)%list_elem_of_fmap.
  apply list_elem_of_filter in Hp as [Hp _]. by apply Hp.
Qed.

(** ** The stable sort *)

Section stable_sort_facts.
Context {A : Type} (leb : A → A → bool).

Lemma stable_sort_cons x l :
  stable_sort leb (x :: l) = insert_sorted leb x (stable_sort leb l).
Proof. reflexivity. Qed.

Lemma insert_sorted_perm x l : insert_sorted leb x l ≡ₚ x :: l.
Proof.
  induction l as [|y l IH]; simpl; [done|].
  destruct (leb x y); [done|]. rewrite IH. apply Permutation_swap.
Qed.

Lemma stable_sort_perm l : stable_sort leb l ≡ₚ l.
Proof.
  induction l as [|x l IH]; simpl; [done|].
  by rewrite insert_sorted_perm, IH.
Qed.

Hypothesis leb_total : ∀ x y, leb x y = true ∨ leb y x = true.
Hypothesis leb_trans : ∀ x y z, leb x y = true → leb y z = true → leb x z = true.

Lemma insert_sorted_sorted x l :
  StronglySorted (λ a b, leb a b = true) l →
  StronglySorted (λ a b, leb a b = true) (insert_sorted leb x l).
Proof.
  induction 1 as [|y l Hl IH Hy]; simpl.
  - repeat constructor.
  - destruct (leb x y) eqn:Hxy.
    + constructor; [by constructor|].
      constructor; [done|]. eapply Forall_impl; [exact Hy|]. eauto.
    + constructor; [done|]. rewrite insert_sorted_perm.
      constructor; [|done]. destruct (leb_total x y); congruence.
Qed.

Lemma stable_sort_sorted l :
  StronglySorted (λ a b, leb a b = true) (stable_sort leb l).
Proof.
  induction l as [|x l IH]; simpl; [constructor|by apply insert_sorted_sorted].
Qed.
End stable_sort_facts.

(** Sorting the images under [h] is the image of sorting, as long as the
    two orders agree on the elements at hand. *)
Lemma insert_sorted_fmap {A B} (lebA : A → A → bool) (lebB : B → B → bool)
    (h : A → B) (x : A) (l : list A) :
  (∀ y, y ∈ l → lebA x y = lebB (h x) (h y)) →
  insert_sorted lebB (h x) (h <$> l) = h <$> insert_sorted lebA x l.
Proof.
  induction l as [|y l IH]; intros Hagree; simpl; [done|].
  rewrite <- Hagree by apply list_elem_of_here.
  destruct (lebA x y); [done|]. rewrite fmap_cons. f_equal.
  apply IH. intros z Hz. apply Hagree. by apply list_elem_of_further.
Qed.

Lemma stable_sort_fmap {A B} (lebA : A → A → bool) (lebB : B → B → bool)
    (h : A → B) (l : list A) :
  (∀ x y, x ∈ l → y ∈ l → lebA x y = lebB (h x) (h y)) →
  stable_sort lebB (h <$> l) = h <$> stable_sort lebA l.
Proof.
  induction l as [|x l IH]; intros Hagree; [done|].
  rewrite fmap_cons, !stable_sort_cons, IH.
  - apply insert_sorted_fmap. intros y Hy. rewrite stable_sort_perm in Hy.
    apply Hagree; [apply list_elem_of_here|by apply list_elem_of_further].
  - intros y z Hy Hz. apply Hagree; by apply list_elem_of_further.
Qed.

Lemma mapM_result_Ok {A B} (f : A → result B) (g : A → B) (l : list A) :
  (∀ x, x ∈ l → f x = Ok (g x)) → mapM f l = Ok (g <$> l).
Proof.
  induction l as [|x l IH]; intros Hf; simpl; [done|].
  rewrite Hf by apply list_elem_of_here. simpl.
  rewrite IH; [done|]. intros y Hy. apply Hf. by apply list_elem_of_further.
Qed.

Lemma sort_by_key_Ok {A K} (leb : K → K → bool) (key : A → result K) (k : A → K)
    (l : list A) :
  (∀ x, x ∈ l → key x = Ok (k x)) →
  sort_by_key leb key l = Ok (stable_sort (λ a b, leb (k a) (k b)) l).
Proof.
  intros Hkey. unfold sort_by_key.
  rewrite (mapM_result_Ok _ (λ x, (k x, x))).
  - simpl. f_equal.
    rewrite (stable_sort_fmap (λ a b, leb (k a) (k b))) by done.
    rewrite <- list_fmap_compose. apply list_fmap_id.
  - intros x Hx. by rewrite Hkey.
Qed.

(** ** The order of (department, title) *)

Lemma string_compare_refl s : String.compare s s = Eq.
Proof.
  induction s as [|c s IH]; simpl; [done|].
  unfold Ascii.compare. by rewrite N.compare_refl.
Qed.

Lemma string_lt_trans a b c : string_lt a b → string_lt b c → string_lt a c.
Proof. exact (StrictOrder_Transitive (R := String_as_OT.lt) a b c). Qed.

Lemma string_le_trans a b c : string_le a b → string_le b c → string_le a c.
Proof.
  unfold string_le. intros Hab Hbc.
  destruct (String.compare a b) eqn:Eab; [|clear Hab|done].
  - by apply String.compare_eq_iff in Eab as ->.
  - destruct (String.compare b c) eqn:Ebc; [| |done].
    + apply String.compare_eq_iff in Ebc as ->. by rewrite Eab.
    + by rewrite (string_lt_trans a b c).
Qed.

Lemma key_leb_spec k1 k2 : key_leb k1 k2 = true ↔ key_le k1 k2.
Proof.
  unfold key_leb, key_le, string_lt, string_le, String.leb.
  destruct (String.compare k1.1 k2.1) eqn:E1.
  - apply String.compare_eq_iff in E1. rewrite E1.
    destruct (String.compare k1.2 k2.2); split; try done;
      try (by intros _; right); try (by intros [?|[_ ?]]).
    all: intros [Hlt|[_ ?]]; [|done]; by rewrite string_compare_refl in Hlt.
  - split; [by left|done].
  - split; [done|]. intros [?|[Heq _]]; [done|].
    rewrite Heq, string_compare_refl in E1. done.
Qed.

Lemma key_leb_total k1 k2 : key_leb k1 k2 = true ∨ key_leb k2 k1 = true.
Proof.
  unfold key_leb, String.leb.
  rewrite (String.compare_antisym k1.1 k2.1), (String.compare_antisym k1.2 k2.2).
  destruct (String.compare k2.1 k1.1), (String.compare k2.2 k1.2); simpl; auto.
Qed.

Lemma key_leb_trans k1 k2 k3 :
  key_leb k1 k2 = true → key_leb k2 k3 = true → key_leb k1 k3 = true.
Proof.
  rewrite !key_leb_spec. unfold key_le.
  intros [H12|[E12 H12]] [H23|[E23 H23]].
  - left. by apply string_lt_trans with k2.1.
  - left. by rewrite <- E23.
  - left. by rewrite E12.
  - right. split; [congruence|]. by apply string_le_trans with k2.2.
Qed.

Lemma StronglySorted_weaken {A} (R S : relation A) (l : list A) :
  (∀ x y, R x y → S x y) → StronglySorted R l → StronglySorted S l.
Proof.
  intros HRS. induction 1 as [|x l Hl IH Hx]; constructor; [done|].
  eapply Forall_impl; [exact Hx|]. auto.
Qed.

Lemma stable_sort_position_sorted (l : list Position.t) :
  StronglySorted position_le (stable_sort position_leb l).
Proof.
  eapply StronglySorted_weaken;
    [|apply (stable_sort_sorted position_leb)].
  - intros p q. apply key_leb_spec.
  - intros p q. apply key_leb_total.
  - intros p q r. apply key_leb_trans.
Qed.

(** ** The dictionaries the shell builds *)

Lemma index_by_id_foldl (ps : list Position.t) (i : Z) (p : Position.t) :
  NoDup (Position.id <$> ps) →
  ∀ m : gmap Z Position.t,
    foldl (λ m p, <[Position.id p := p]> m) m ps !! i = Some p ↔
    (p ∈ ps ∧ Position.id p = i) ∨ ((i ∉ (Position.id <$> ps)) ∧ m !! i = Some p).
Proof.
  induction ps as [|q ps IH]; intros Hnd m; simpl.
  - split; [intros ?; right; split; [apply not_elem_of_nil|done]|].
    intros [[[]%elem_of_nil _]|[_ ?]]. done.
  - rewrite fmap_cons in Hnd. apply NoDup_cons in Hnd as [Hq Hnd].
    rewrite (IH Hnd). rewrite lookup_insert. split.
    + intros [[Hp Hi]|[Hi Hm]].
      * left. split; [by apply list_elem_of_further|done].
      * case_decide as Hqi.
        -- injection Hm as ->. left. split; [apply list_elem_of_here|done].
        -- right. split; [|done]. rewrite ?fmap_cons, elem_of_cons. intros [?|?]; [congruence|done].
    + intros [[[->|Hp]%elem_of_cons Hi]|[Hi Hm]].
      * right. split; [by rewrite <- Hi|]. by rewrite decide_True.
      * by left.
      * rewrite ?fmap_cons, elem_of_cons in Hi. right. split; [tauto|].
        case_decide as Hd; [|done]. exfalso. apply Hi. by left.
Qed.

Lemma index_by_id_lookup (ps : list Position.t) (i : Z) (p : Position.t) :
  NoDup (Position.id <$> ps) →
  index_by_id ps !! i = Some p ↔ p ∈ ps ∧ Position.id p = i.
Proof.
  intros Hnd. unfold index_by_id. rewrite (index_by_id_foldl _ _ _ Hnd).
  rewrite lookup_empty. split; [intros [?|[_ ?]]; done|by left].
Qed.

Lemma index_by_id_elem (ps : list Position.t) (p : Position.t) :
  NoDup (Position.id <$> ps) → p ∈ ps → index_by_id ps !! Position.id p = Some p.
Proof. intros Hnd Hp. by apply index_by_id_lookup. Qed.

Lemma group_children_foldl (ps : list Position.t) (k : option Z) :
  ∀ m : gmap (option Z) (list Z),
    default [] (foldl (λ m p,
                         let parent := Position.parent_position_id p in
                         <[parent := default [] (m !! parent) ++ [Position.id p]]> m)
                      m ps !! k)
    = default [] (m !! k) ++ (Position.id <$> children_in ps k).
Proof.
  unfold children_in. induction ps as [|q ps IH]; intros m; simpl.
  - by rewrite app_nil_r.
  - rewrite IH, lookup_insert. case_decide as Hk.
    + rewrite filter_cons_True by done. simpl. rewrite Hk. by rewrite <- app_assoc.
    + by rewrite filter_cons_False.
Qed.

Lemma group_children_lookup (ps : list Position.t) (k : option Z) :
  default [] (group_children ps !! k) = Position.id <$> children_in ps k.
Proof. unfold group_children. by rewrite group_children_foldl, lookup_empty. Qed.

Lemma siblings_perm ps parent : siblings ps parent ≡ₚ children_in ps parent.
Proof. apply stable_sort_perm. Qed.

Lemma siblings_sorted ps parent : StronglySorted position_le (siblings ps parent).
Proof. apply stable_sort_position_sorted. Qed.

Lemma elem_of_siblings ps parent p :
  p ∈ siblings ps parent ↔ p ∈ ps ∧ Position.parent_position_id p = parent.
Proof.
  rewrite siblings_perm. unfold children_in. rewrite list_elem_of_filter. tauto.
Qed.

Lemma sort_by_chart_key (position_by_id : gmap Z Position.t) (ids : list Z) :
  Forall (λ i, is_Some (position_by_id !! i)) ids →
  sort_by_key key_leb (chart_key position_by_id) ids = Ok (sort_ids position_by_id ids).
Proof.
  intros Hids. apply sort_by_key_Ok. intros i Hi.
  rewrite Forall_forall in Hids. destruct (Hids i Hi) as [p Hp].
  unfold chart_key, id_key. by rewrite Hp.
Qed.

(** The sorting loop succeeds when every id in the dictionary is a key of
    [position_by_id], and sorts each list in place. *)
Lemma sort_children_Ok (position_by_id : gmap Z Position.t)
    (children : gmap (option Z) (list Z)) :
  (∀ k ids, children !! k = Some ids →
            Forall (λ i, is_Some (position_by_id !! i)) ids) →
  ∃ sorted,
    sort_children position_by_id children = Ok sorted ∧
    ∀ k, sorted !! k = sort_ids position_by_id <$> children !! k.
Proof.
  unfold sort_children.
  apply (map_fold_weak_ind (λ r (m : gmap (option Z) (list Z)),
    (∀ k ids, m !! k = Some ids → Forall (λ i, is_Some (position_by_id !! i)) ids) →
    ∃ sorted, r = Ok sorted ∧ ∀ k, sorted !! k = sort_ids position_by_id <$> m !! k)).
  - intros _. exists ∅. split; [done|]. intros k. by rewrite !lookup_empty.
  - intros k ids m r Hk IH Hall.
    destruct IH as (sorted & -> & Hsorted).
    { intros k' ids' Hk'. apply (Hall k'). rewrite lookup_insert_ne; [done|congruence]. }
    simpl. rewrite sort_by_chart_key by (apply (Hall k); by rewrite lookup_insert_eq).
    simpl. eexists. split; [reflexivity|].
    intros k'. rewrite !lookup_insert. case_decide; [done|apply Hsorted].
Qed.

Lemma sort_ids_siblings (ps : list Position.t) (parent : option Z) :
  NoDup (Position.id <$> ps) →
  sort_ids (index_by_id ps) (Position.id <$> children_in ps parent)
  = Position.id <$> siblings ps parent.
Proof.
  intros Hnd. unfold sort_ids, siblings. apply stable_sort_fmap.
  intros p q Hp Hq. unfold children_in in Hp, Hq.
  apply list_elem_of_filter in Hp as [_ Hp], Hq as [_ Hq].
  unfold id_key. by rewrite !index_by_id_elem.
Qed.

(** What [_refresh_chart] has in hand once both loops are through. *)
Lemma sort_children_spec (ps : list Position.t) :
  NoDup (Position.id <$> ps) →
  ∃ children,
    sort_children (index_by_id ps) (group_children ps) = Ok children ∧
    ∀ parent, default [] (children !! parent) = Position.id <$> siblings ps parent.
Proof.
  intros Hnd.
  destruct (sort_children_Ok (index_by_id ps) (group_children ps))
    as (children & Hrun & Hlookup).
  { intros k ids Hk. pose proof (group_children_lookup ps k) as Hids.
    rewrite Hk in Hids. simpl in Hids. subst ids.
    apply Forall_forall. intros i (p & -> & Hp)%list_elem_of_fmap.
    unfold children_in in Hp. apply list_elem_of_filter in Hp as [_ Hp].
    exists p. by apply index_by_id_elem. }
  exists children. split; [done|]. intros parent.
  rewrite Hlookup, <- sort_ids_siblings by done.
  rewrite <- group_children_lookup.
  by destruct (group_children ps !! parent).
Qed.

Lemma title_cache_foldl (ps : list Position.t) (t : string) :
  ∀ m : gmap string Z,
    (foldl (λ m p, <[Position.title p := Position.id p]> m) m ps !! t = None ↔
       m !! t = None ∧ ∀ p, p ∈ ps → Position.title p ≠ t) ∧
    (∀ i, foldl (λ m p, <[Position.title p := Position.id p]> m) m ps !! t = Some i →
       m !! t = Some i ∨ ∃ p, p ∈ ps ∧ Position.title p = t ∧ Position.id p = i).
Proof.
  induction ps as [|q ps IH]; intros m; simpl.
  - split; [|by left]. split; [intros ?; split; [done|by intros ? ?%elem_of_nil]|by intros [? _]].
  - destruct (IH (<[Position.title q := Position.id q]> m)) as [IHn IHs]. split.
    + rewrite IHn, lookup_insert. case_decide as Hq.
      * split; [by intros [? _]|]. intros [_ Hall]. destruct (Hall q); [apply list_elem_of_here|done].
      * split; intros [Hm Hall]; (split; [done|]).
        -- intros p [->|Hp]%elem_of_cons; [done|by apply Hall].
        -- intros p Hp. apply Hall. by apply list_elem_of_further.
    + intros i Hi. destruct (IHs i Hi) as [Hm|(p & Hp & Ht & Hid)].
      * rewrite lookup_insert in Hm. case_decide as Hq; [|by left].
        injection Hm as <-. right. exists q. split; [apply list_elem_of_here|done].
      * right. exists p. split; [by apply list_elem_of_further|done].
Qed.


Lemma title_cache_Some (ps : list Position.t) (t : string) (i : Z) :
  title_cache ps !! t = Some i →
  ∃ p, p ∈ ps ∧ Position.title p = t ∧ Position.id p = i.
Proof.
  unfold title_cache. destruct (title_cache_foldl ps t ∅) as [_ Hs].
  intros [Hm|?]%Hs; [|done]. by rewrite lookup_empty in Hm.
Qed.

(** ** Listing positions *)

Lemma list_positions_perm sid db :
  list_positions sid db ≡ₚ filter (λ p, Position.scenario_id p = sid) (positions db).
Proof. apply stable_sort_perm. Qed.

Lemma list_positions_NoDup sid db :
  NoDup (Position.id <$> positions db) →
  NoDup (Position.id <$> list_positions sid db).
Proof.
  intros Hnd. rewrite list_positions_perm.
  eapply sublist_NoDup; [exact Hnd|]. apply fmap_sublist, sublist_filter.
Qed.

(** ** Rendering the chart *)


Lemma mapM_result_inv {A B} (f : A → result B) (l : list A) (ys : list B) :
  mapM f l = Ok ys → Forall2 (λ x y, f x = Ok y) l ys.
Proof.
  revert ys. induction l as [|x l IH]; intros ys; simpl.
  - intros [= <-]. constructor.
  - destruct (f x) as [y|] eqn:Hy; simpl; [|done].
    destruct (mapM f l) as [ys'|]; simpl; [|done].
    intros [= <-]. constructor; [done|by apply IH].
Qed.

Lemma Forall2_elem_of_r {A B} (P : A → B → Prop) (l : list A) (k : list B) (y : B) :
  Forall2 P l k → y ∈ k → ∃ x, x ∈ l ∧ P x y.
Proof.
  induction 1 as [|x y' l k Hxy _ IH]; [by intros ?%elem_of_nil|].
  intros [->|Hy]%elem_of_cons.
  - exists x. split; [apply list_elem_of_here|done].
  - destruct (IH Hy) as (x' & Hx' & HP). exists x'. split; [by apply list_elem_of_further|done].
Qed.

Section chart.
Context (ps : list Position.t) (children : gmap (option Z) (list Z)).
Hypothesis ids_unique : NoDup (Position.id <$> ps).
Hypothesis children_sorted :
  ∀ parent, default [] (children !! parent) = Position.id <$> siblings ps parent.

Lemma same_id_same_position p q :
  p ∈ ps → q ∈ ps → Position.id p = Position.id q → p = q.
Proof.
  intros Hp Hq Hid. apply (index_by_id_elem ps) in Hp, Hq; try done.
  rewrite Hid in Hp. congruence.
Qed.









(** Whatever a call returns carries the label of the position it was
    called for, and below it one item per entry of the sibling list,
    labelled in that order. *)
Lemma insert_chart_node_text (limit : nat) (i : Z) (item : Item) :
  _insert_chart_node limit i (index_by_id ps) children = Ok item →
  ∃ p, p ∈ ps ∧ Position.id p = i ∧ item_text item = chart_label p.
Proof.
  destruct limit as [|n]; simpl; [done|].
  destruct (index_by_id ps !! i) as [p|] eqn:Hp; simpl; [|done].
  destruct (mapM _ _); simpl; [|done]. intros [= <-].
  apply index_by_id_lookup in Hp as [Hp Hid]; [|done]. by exists p.
Qed.

Lemma insert_chart_nodes_texts (n : nat) (kids : list Position.t) :
  Forall (λ c, c ∈ ps) kids →
  ∀ items,
    Forall2 (λ i item, _insert_chart_node n i (index_by_id ps) children = Ok item)
            (Position.id <$> kids) items →
    item_text <$> items = chart_label <$> kids.
Proof.
  induction 1 as [|c kids Hc _ IH]; intros items Hitems.
  - by apply Forall2_nil_inv_l in Hitems as ->.
  - rewrite fmap_cons in Hitems.
    apply Forall2_cons_inv_l in Hitems as (item & items' & Hitem & Hitems & ->).
    rewrite !fmap_cons. f_equal; [|by apply IH].
    apply insert_chart_node_text in Hitem as (q & Hq & Hid & ->).
    f_equal. by apply same_id_same_position.
Qed.

Lemma insert_chart_node_children (limit : nat) (i : Z) (item : Item) :
  _insert_chart_node limit i (index_by_id ps) children = Ok item →
  item_text <$> item_children item = chart_label <$> siblings ps (Some i).
Proof.
  destruct limit as [|n]; simpl; [done|].
  destruct (index_by_id ps !! i) as [p|]; simpl; [|done].
  rewrite children_sorted.
  destruct (mapM _ _) as [items|] eqn:Hitems; simpl; [|done]. intros [= <-]. simpl.
  apply mapM_result_inv in Hitems.
  apply (insert_chart_nodes_texts n); [|done].
  apply Forall_forall. by intros c [Hc _]%elem_of_siblings.
Qed.

End chart.


(** C7. The listing of a scenario's positions is the scenario's positions
    in ascending (department, title) order; and in the chart, the sibling
    list under every parent is the positions naming that parent, in the
    same order, which is also the order of the items a call inserts below
    a node. *)
Theorem positions_sorted_by_department_title (db : Database) (sid : Z) :
  NoDup (Position.id <$> positions db) →
  let ps := list_positions sid db in
  ps ≡ₚ filter (λ p, Position.scenario_id p = sid) (positions db) ∧
  StronglySorted position_le ps ∧
  ∃ children,
    sort_children (index_by_id ps) (group_children ps) = Ok children ∧
    ∀ parent, ∃ kids,
      default [] (children !! parent) = Position.id <$> kids ∧
      kids ≡ₚ filter (λ p, Position.parent_position_id p = parent) ps ∧
      StronglySorted position_le kids ∧
      ∀ limit node item,
        parent = Some node →
        _insert_chart_node limit node (index_by_id ps) children = Ok item →
        item_text <$> item_children item =
          (λ p, Position.title p +:+ " (" +:+ Position.department p +:+ ")") <$> kids.
Proof.
  intros Hnd ps. split; [apply list_positions_perm|].
  split; [apply stable_sort_position_sorted|].
  pose proof (list_positions_NoDup sid db Hnd) as Hnd'. fold ps in Hnd'.
  destruct (sort_children_spec ps Hnd') as (children & Hsort & Hch).
  exists children. split; [done|]. intros parent.
  exists (siblings ps parent).
  split; [apply Hch|]. split; [apply siblings_perm|]. split; [apply siblings_sorted|].
  intros limit node item -> Hitem.
  by apply (insert_chart_node_children ps children Hnd' Hch limit).
Qed.


Lemma positions_sorted_by_department_title_example :
  let ps := list_positions 1 chart_db in
  ps ≡ₚ filter (λ p, Position.scenario_id p = 1) (positions chart_db) ∧
  StronglySorted position_le ps ∧
  ∃ children,
    sort_children (index_by_id ps) (group_children ps) = Ok children ∧
    ∀ parent, ∃ kids,
      default [] (children !! parent) = Position.id <$> kids ∧
      kids ≡ₚ filter (λ p, Position.parent_position_id p = parent) ps ∧
      StronglySorted position_le kids ∧
      ∀ limit node item,
        parent = Some node →
        _insert_chart_node limit node (index_by_id ps) children = Ok item →
        item_text <$> item_children item =
          (λ p, Position.title p +:+ " (" +:+ Position.department p +:+ ")") <$> kids.
Proof.
  apply (positions_sorted_by_department_title chart_db 1).
  apply (bool_decide_unpack _). vm_compute. exact I.
Defined.


(** ** The parent field of the position form *)

(** C10 does not hold for every text.  A store seeded for 2024 holds the position
    "CEO"; the form, refreshed on it, is filled with the parent text "CEO "
    (a trailing blank).  That text is not empty and is not a key of the
    cache as it stands, yet the new position gets the CEO as parent, not
    NULL. *)
Lemma add_position_padded_parent_resolves :
  let db0 := (seed_quarter_scenarios 2024 1 empty_database).1 in
  let db := (add_position (Some 1) (Some "CEO") (Some "Executive") None db0).1 in
  let self := _refresh_positions (mkApp (Some 1) "CTO" "Technology" "CEO " "" ∅ [] []) db in
  position_parent self ≠ "" ∧
  _positions_cache self !! position_parent self = None ∧
  positions db = [Position.mk 1 1 "CEO" "Executive" None] ∧
  ∃ db' self',
    _add_position self db = (db', Ok self') ∧
    positions db' = [Position.mk 1 1 "CEO" "Executive" None;
                     Position.mk 2 1 "CTO" "Technology" (Some 1)].
Proof.
  split; [done|]. split; [by vm_compute|]. split; [reflexivity|].
  eexists _, _. split; vm_compute; reflexivity.
Qed.

(** C10, amended. When the text of the parent field, stripped of
    surrounding whitespace, is not a title in the cache, the position is
    inserted with a NULL parent; no exception is raised and no message box
    is shown. *)
Theorem add_position_unmatched_parent (self : App) (db : Database) (sid : Z) :
  scenario_id self = Some sid →
  strip (position_title self) ≠ "" →
  strip (position_department self) ≠ "" →
  _positions_cache self !! strip (position_parent self) = None →
  ∃ db' self',
    _add_position self db = (db', Ok self') ∧
    positions db' =
      positions db ++
      [Position.mk (new_rowid Position.id (seq_positions db) (positions db)) sid
                   (strip (position_title self)) (strip (position_department self))
                   None] ∧
    dialogs self' = dialogs self.
Proof.
  intros Hsid Htitle Hdept Hparent.
  unfold _add_position. rewrite Hsid.
  rewrite !bool_decide_eq_false_2 by done. simpl.
  assert (_combo_value_to_id (position_parent self) (_positions_cache self) = None) as ->.
  { unfold _combo_value_to_id. by case_bool_decide. }
  eexists _, _. split; [reflexivity|]. split; [reflexivity|].
  reflexivity.
Qed.

Lemma add_position_unmatched_parent_example :
  let db := mkDatabase
              [Scenario.mk 1 "FY2024 Q1" 2024 1 "2024-01-01" "2024-04-01"]
              [Position.mk 1 1 "CEO" "Executive" None] [] [] 1 1 0 0 in
  let self := mkApp (Some 1) " CTO" "Technology " "Chairman" ""
                    (title_cache (list_positions 1 db)) [] [] in
  ∃ db' self',
    _add_position self db = (db', Ok self') ∧
    positions db' =
      positions db ++ [Position.mk 2 1 "CTO" "Technology" None] ∧
    dialogs self' = dialogs self.
Proof.
  apply (add_position_unmatched_parent
           (mkApp (Some 1) " CTO" "Technology " "Chairman" ""
                  (title_cache
                     (list_positions 1
                        (mkDatabase
                           [Scenario.mk 1 "FY2024 Q1" 2024 1 "2024-01-01" "2024-04-01"]
                           [Position.mk 1 1 "CEO" "Executive" None] [] [] 1 1 0 0)))
                  [] [])
           (mkDatabase
              [Scenario.mk 1 "FY2024 Q1" 2024 1 "2024-01-01" "2024-04-01"]
              [Position.mk 1 1 "CEO" "Executive" None] [] [] 1 1 0 0)
           1).
  - reflexivity.
  - vm_compute. discriminate.
  - vm_compute. discriminate.
  - vm_compute. reflexivity.
Defined.

(** ** Forests the shell builds *)

Lemma parents_older_chain_below (ps : list Position.t) (lo : Z) :
  NoDup (Position.id <$> ps) → parents_older ps →
  (∀ p, p ∈ ps → lo ≤ Position.id p) →
  ∀ (n : nat) (x : Z), x - lo < Z.of_nat n → ∃ anc, parent_chain ps x anc.
Proof.
  intros Hnd Hold Hlo. induction n as [|n IH]; intros x Hx.
  - exists []. apply chain_top. intros p Hp Hid. specialize (Hlo p Hp). lia.
  - destruct (index_by_id ps !! x) as [p|] eqn:Hp.
    + apply index_by_id_lookup in Hp as [Hp Hid]; [|done].
      destruct (Position.parent_position_id p) as [q|] eqn:Hpar.
      * destruct (IH q) as [anc Hanc]; [specialize (Hold p q Hp Hpar); lia|].
        exists (q :: anc). by apply chain_up with p.
      * exists []. apply chain_top. intros p' Hp' Hid'.
        by rewrite (same_id_same_position ps Hnd p' p) by congruence.
    + exists []. apply chain_top. intros p Hp' Hid.
      assert (index_by_id ps !! x = Some p) by (by apply index_by_id_lookup).
      congruence.
Qed.

Lemma ids_bounded_below (ps : list Position.t) :
  ∃ lo, ∀ p, p ∈ ps → lo ≤ Position.id p.
Proof.
  induction ps as [|q ps [lo Hlo]].
  - exists 0. by intros p ?%elem_of_nil.
  - exists (Z.min lo (Position.id q)). intros p [->|Hp]%elem_of_cons; [lia|].
    specialize (Hlo p Hp). lia.
Qed.

(** In such a list every parent chain ends. *)
Lemma parents_older_chain (ps : list Position.t) (x : Z) :
  NoDup (Position.id <$> ps) → parents_older ps → ∃ anc, parent_chain ps x anc.
Proof.
  intros Hnd Hold. destruct (ids_bounded_below ps) as [lo Hlo].
  apply (parents_older_chain_below ps lo Hnd Hold Hlo (S (Z.to_nat (x - lo)))). lia.
Qed.

Lemma parents_older_sublist (ps qs : list Position.t) :
  (∀ p, p ∈ qs → p ∈ ps) → parents_older ps → parents_older qs.
Proof. intros Hsub Hold p q Hp. apply Hold. by apply Hsub. Qed.

Lemma list_positions_elem sid db p :
  p ∈ list_positions sid db → p ∈ positions db.
Proof. rewrite list_positions_perm. by intros [_ ?]%list_elem_of_filter. Qed.

(** Adding a position through the form keeps keys unique and parents
    older, whatever the form holds. *)
Lemma add_position_keeps_forest (self : App) (db : Database) (sid : Z) :
  scenario_id self = Some sid →
  _positions_cache self = title_cache (list_positions sid db) →
  NoDup (Position.id <$> positions db) → parents_older (positions db) →
  NoDup (Position.id <$> positions (_add_position self db).1) ∧
  parents_older (positions (_add_position self db).1).
Proof.
  intros Hsid Hcache Hnd Hold. unfold _add_position. rewrite Hsid.
  destruct (_ || _); [done|].
  unfold add_position, with_connection, insert_position. simpl. split.
  - rewrite fmap_app. apply NoDup_app. split; [done|]. split; [|apply NoDup_singleton].
    intros i Hi Hnew. apply list_elem_of_singleton in Hnew as ->.
    by apply new_rowid_fresh in Hi.
  - intros p q [Hp|Hp]%elem_of_app Hpar; [by apply Hold|].
    apply list_elem_of_singleton in Hp as ->. simpl in *. unfold _combo_value_to_id in Hpar. case_bool_decide; [done|].
    rewrite Hcache in Hpar. apply title_cache_Some in Hpar as (r & Hr%list_positions_elem & _ & <-).
    apply (max_rowid_bound Position.id) in Hr. unfold new_rowid. lia.
Qed.


(** * Further properties *)

(** ** Keys and uniqueness in every reachable store *)

Lemma max_rowid_nonneg {A} (rowid : A → Z) (rows : list A) : 0 ≤ max_rowid rowid rows.
Proof. induction rows as [|r rows IH]; simpl; lia. Qed.

Lemma keys_ok_nil {A} (rowid : A → Z) : keys_ok rowid 0 [].
Proof. split; [constructor|by intros r ?%elem_of_nil]. Qed.

Lemma keys_ok_insert {A} (rowid : A → Z) (seq : Z) (rows : list A) (r : A) :
  rowid r = new_rowid rowid seq rows →
  keys_ok rowid seq rows →
  keys_ok rowid (new_rowid rowid seq rows) (rows ++ [r]).
Proof.
  intros Hr [Hnd Hb]. pose proof (max_rowid_nonneg rowid rows). split.
  - rewrite fmap_app. apply NoDup_app. split; [done|]. split; [|apply NoDup_singleton].
    intros i Hi Hnew. apply list_elem_of_singleton in Hnew as ->.
    rewrite Hr in Hi. by apply new_rowid_fresh in Hi.
  - intros r' [Hr'|Hr']%elem_of_app.
    + specialize (Hb r' Hr'). unfold new_rowid. lia.
    + apply list_elem_of_singleton in Hr' as ->. rewrite Hr. unfold new_rowid. lia.
Qed.

Lemma keys_ok_bump {A} (rowid : A → Z) (seq : Z) (rows : list A) :
  keys_ok rowid seq rows → keys_ok rowid (new_rowid rowid seq rows) rows.
Proof.
  intros [Hnd Hb]. split; [done|]. intros r Hr. specialize (Hb r Hr).
  unfold new_rowid. lia.
Qed.

Lemma keys_ok_filter {A} (rowid : A → Z) (seq : Z) (rows : list A)
    (P : A → Prop) `{!∀ x, Decision (P x)} :
  keys_ok rowid seq rows → keys_ok rowid seq (filter P rows).
Proof.
  intros [Hnd Hb]. split.
  - eapply sublist_NoDup; [exact Hnd|]. apply fmap_sublist, sublist_filter.
  - intros r [_ Hr]%list_elem_of_filter. by apply Hb.
Qed.

Lemma keys_ok_update {A} (rowid : A → Z) (seq : Z) (rows : list A) (f : A → A) :
  (∀ r, rowid (f r) = rowid r) →
  keys_ok rowid seq rows → keys_ok rowid seq (f <$> rows).
Proof.
  intros Hf [Hnd Hb]. split.
  - rewrite <- list_fmap_compose. by rewrite (list_fmap_ext _ rowid) by (intros; apply Hf).
  - intros r (r' & -> & Hr')%list_elem_of_fmap. rewrite Hf. by apply Hb.
Qed.

Ltac wf_split :=
  refine (conj _ (conj _ (conj _ (conj _ (conj _ _))))); simpl.

Lemma wf_db_empty : wf_db empty_database.
Proof.
  unfold wf_db, keys_ok. simpl.
  repeat split; try apply NoDup_nil_2; by apply elem_of_nil in H.
Qed.

Lemma with_connection_state {A} (P : Database → Prop) conn (body : Connection → Sql A) db :
  P db → P (body conn db).1 → P (with_connection conn body db).1.
Proof. unfold with_connection. by destruct (body conn db) as [db' [a|e]]. Qed.

Lemma insert_or_ignore_scenario_wf p db :
  wf_db db → wf_db (insert_or_ignore_scenario p db).1.
Proof.
  intros (Hs & Hp & He & Ha & Hper & Hcode).
  destruct p as [[[[name year] quarter] start_date] end_date].
  unfold insert_or_ignore_scenario. simpl.
  destruct (existsb _ (scenarios db)) eqn:Htaken.
  - wf_split; try done. by apply keys_ok_bump.
  - wf_split; try done; [by apply keys_ok_insert|].
    rewrite fmap_app. apply NoDup_app. split; [done|].
    split; [|apply NoDup_singleton].
    intros k Hk Hnew. apply list_elem_of_singleton in Hnew. subst k.
    apply (period_taken_spec (scenarios db) year quarter) in Hk. congruence.
Qed.

Lemma executemany_insert_or_ignore_wf params :
  ∀ db, wf_db db → wf_db (executemany insert_or_ignore_scenario params db).1.
Proof.
  induction params as [|p params IH]; intros db Hwf; [done|].
  destruct (insert_or_ignore_scenario_spec p db) as (db1 & Hrun & _).
  pose proof (insert_or_ignore_scenario_wf p db Hwf) as Hwf1.
  simpl. unfold mbind, Sql_bind. rewrite Hrun in *. by apply IH.
Qed.

(** One call keeps the store well formed, whether it returns or raises. *)
Lemma run_call_wf (c : Call) (db : Database) : wf_db db → wf_db (run_call c db).1.
Proof.
  intros Hwf. pose proof Hwf as (Hs & Hp & He & Ha & Hper & Hcode).
  destruct c as [y n|s t d par|code name|e p sd ed|e p d|i|i|i]; cbn [run_call].
  - unfold seed_quarter_scenarios. destruct (seed_params y n); [|done].
    apply (with_connection_state wf_db); [done|]. by apply executemany_insert_or_ignore_wf.
  - unfold add_position. apply (with_connection_state wf_db); [done|]. unfold insert_position.
    destruct s, t, d; try done. destruct (_ && _); [done|].
    wf_split; try done. by apply keys_ok_insert.
  - unfold add_employee. apply (with_connection_state wf_db); [done|]. unfold insert_employee.
    destruct code as [code|], name; try done.
    destruct (existsb _ (employees db)) eqn:Htaken; [done|].
    wf_split; try done; [by apply keys_ok_insert|].
    rewrite fmap_app. apply NoDup_app. split; [done|].
    split; [|apply NoDup_singleton].
    intros k Hk Hnew. apply list_elem_of_singleton in Hnew. subst k.
    apply (code_taken_spec (employees db) code) in Hk. congruence.
  - unfold add_assignment. apply (with_connection_state wf_db); [done|]. unfold insert_assignment.
    destruct e, p, sd; try done. destruct (_ && _); [done|].
    wf_split; try done. by apply keys_ok_insert.
  - unfold move_employee. apply (with_connection_state wf_db); [done|].
    unfold move_employee_on, mbind, Sql_bind, close_open_assignments, insert_assignment.
    assert (Ha' : keys_ok Assignment.id (seq_assignments db)
                    ((λ a, if is_open_for e a then set_end_date d a else a)
                       <$> assignments db)).
    { apply keys_ok_update; [|done]. intros a. by destruct (is_open_for e a). }
    destruct e, p, d; simpl; try (wf_split; done).
    wf_split; try done. by apply keys_ok_insert.
  - unfold delete_position. apply (with_connection_state wf_db); [done|].
    unfold delete_position_stmt. simpl.
    wf_split; try done. by apply keys_ok_filter.
  - unfold delete_employee. apply (with_connection_state wf_db); [done|].
    unfold delete_employee_stmt. simpl.
    wf_split; try done; [by apply keys_ok_filter|].
    eapply sublist_NoDup; [exact Hcode|]. apply fmap_sublist, sublist_filter.
  - unfold delete_assignment. apply (with_connection_state wf_db); [done|]. simpl.
    wf_split; try done. by apply keys_ok_filter.
Qed.

Lemma run_calls_wf (calls : list Call) (db : Database) :
  wf_db db → wf_db (run_calls calls db).
Proof.
  unfold run_calls. revert db.
  induction calls as [|c calls IH]; intros db Hwf; [done|].
  simpl. apply IH. by apply run_call_wf.
Qed.

(** X1. Whatever methods of [Database] are called on a fresh store, in
    whatever order and with whatever arguments, and whether they return or
    raise: in every table the keys are pairwise different, at least 1 and
    not above the table's sequence counter; no two scenarios share a (year,
    quarter); no two employees share a code. *)
Theorem reachable_store_well_formed (calls : list Call) :
  wf_db (run_calls calls empty_database).
Proof. apply run_calls_wf, wf_db_empty. Qed.

(** ** Deletes *)

Lemma filter_id_ne {A} (rowid : A → Z) (i : Z) (rows : list A) :
  i ∉ (rowid <$> rows) → filter (λ r, rowid r ≠ i) rows = rows.
Proof.
  induction rows as [|r rows IH]; [done|]. rewrite fmap_cons, not_elem_of_cons.
  intros [Hne Hrest]. rewrite filter_cons_True by congruence. by rewrite IH.
Qed.



(** ** Keys are handed out once *)

Lemma keys_from_refl db : keys_from db db.
Proof.
  split; (split; [lia|]); intros r Hr; left; apply list_elem_of_fmap; by exists r.
Qed.

Lemma keys_from_trans db1 db2 db3 :
  keys_from db1 db2 → keys_from db2 db3 → keys_from db1 db3.
Proof.
  intros [[Hs1 Hp1] [Ht1 He1]] [[Hs2 Hp2] [Ht2 He2]].
  split; (split; [lia|]).
  - intros p [(q & -> & Hq)%list_elem_of_fmap|Hnew]%Hp2; [by apply Hp1|right; lia].
  - intros e [(q & -> & Hq)%list_elem_of_fmap|Hnew]%He2; [by apply He1|right; lia].
Qed.

Lemma keys_from_same db db' :
  positions db' = positions db → seq_positions db' = seq_positions db →
  employees db' = employees db → seq_employees db' = seq_employees db →
  keys_from db db'.
Proof.
  intros Hp Hs He Ht.
  split; (split; [lia|]); intros r Hr; left; apply list_elem_of_fmap; exists r;
    by rewrite <- ?Hp, <- ?He.
Qed.

Lemma executemany_insert_or_ignore_seqs params : ∀ db,
  seq_positions (executemany insert_or_ignore_scenario params db).1 = seq_positions db ∧
  seq_employees (executemany insert_or_ignore_scenario params db).1 = seq_employees db.
Proof.
  induction params as [|p params IH]; intros db; [split; reflexivity|].
  simpl. unfold mbind, Sql_bind.
  destruct (insert_or_ignore_scenario_spec p db) as (db1 & Hrun & _).
  rewrite Hrun. destruct (IH db1) as [-> ->].
  apply (f_equal fst) in Hrun. simpl in Hrun. subst db1.
  by destruct p as [[[[? ?] ?] ?] ?].
Qed.

Lemma run_call_keys_from (c : Call) (db : Database) : keys_from db (run_call c db).1.
Proof.
  destruct c as [y n|s t d par|code name|e p sd ed|e p d|i|i|i]; cbn [run_call].
  - destruct (seed_quarter_scenarios_cases y n db)
      as [(e & _ & ->) | (params & _ & ->)]; [apply keys_from_refl|].
    destruct (executemany_insert_or_ignore_spec params db) as (db' & ? & Hrun & Hp & He & _).
    destruct (executemany_insert_or_ignore_seqs params db) as [Hs Ht].
    rewrite Hrun in *. by apply keys_from_same.
  - unfold add_position. apply (with_connection_state (keys_from db)); [apply keys_from_refl|].
    unfold insert_position. destruct s, t, d; try apply keys_from_refl.
    destruct (_ && _); [apply keys_from_refl|]. simpl.
    split; (split; [unfold new_rowid; simpl; lia|]); simpl.
    + intros q [Hq|Hq]%elem_of_app.
      * left. apply list_elem_of_fmap. by exists q.
      * apply list_elem_of_singleton in Hq as ->. right. unfold new_rowid. simpl. lia.
    + intros q Hq. left. apply list_elem_of_fmap. by exists q.
  - unfold add_employee. apply (with_connection_state (keys_from db)); [apply keys_from_refl|].
    unfold insert_employee. destruct code, name; try apply keys_from_refl.
    destruct (existsb _ _); [apply keys_from_refl|]. simpl.
    split; (split; [unfold new_rowid; simpl; lia|]); simpl.
    + intros q Hq. left. apply list_elem_of_fmap. by exists q.
    + intros q [Hq|Hq]%elem_of_app.
      * left. apply list_elem_of_fmap. by exists q.
      * apply list_elem_of_singleton in Hq as ->. right. unfold new_rowid. simpl. lia.
  - unfold add_assignment. apply (with_connection_state (keys_from db)); [apply keys_from_refl|].
    unfold insert_assignment. destruct e, p, sd; try apply keys_from_refl.
    destruct (_ && _); [apply keys_from_refl|]. by apply keys_from_same.
  - unfold move_employee. apply (with_connection_state (keys_from db)); [apply keys_from_refl|].
    unfold move_employee_on, mbind, Sql_bind, close_open_assignments, insert_assignment.
    destruct e, p, d; simpl; by apply keys_from_same.
  - rewrite delete_position_run. simpl. split; [split; [simpl; lia|]|].
    + simpl. intros q [_ Hq]%list_elem_of_filter. left. apply list_elem_of_fmap. by exists q.
    + split; [simpl; lia|]. simpl. intros q Hq. left. apply list_elem_of_fmap. by exists q.
  - rewrite delete_employee_run. simpl. split; [split; [simpl; lia|]|].
    + simpl. intros q Hq. left. apply list_elem_of_fmap. by exists q.
    + split; [simpl; lia|]. simpl. intros q [_ Hq]%list_elem_of_filter.
      left. apply list_elem_of_fmap. by exists q.
  - unfold delete_assignment, with_connection. simpl. by apply keys_from_same.
Qed.

Lemma run_calls_keys_from (calls : list Call) (db0 : Database) :
  ∀ db, keys_from db0 db → keys_from db0 (run_calls calls db).
Proof.
  induction calls as [|c calls IH]; intros db H; [done|].
  apply IH. eapply keys_from_trans; [exact H|apply run_call_keys_from].
Qed.

(** X3. No key of a position or an employee is handed out twice: after
    any series of calls, every key in the table was there before the series
    or lies above the counter the table had then; so a key that was
    deleted, being below the counter, never comes back for another row. *)
Theorem keys_never_reused (calls : list Call) (db : Database) :
  let db' := run_calls calls db in
  (∀ p, p ∈ positions db' →
        Position.id p ∈ (Position.id <$> positions db) ∨ seq_positions db < Position.id p) ∧
  (∀ e, e ∈ employees db' →
        Employee.id e ∈ (Employee.id <$> employees db) ∨ seq_employees db < Employee.id e).
Proof.
  destruct (run_calls_keys_from calls db db (keys_from_refl db)) as [[_ Hp] [_ He]].
  by split.
Qed.

(** ** Open assignments *)

Lemma filter_open_other e e' d (rows : list Assignment.t) :
  e' ≠ e →
  filter (open_of e') (closed_at e d <$> rows) = filter (open_of e') rows.
Proof.
  intros Hne. induction rows as [|a rows IH]; [done|].
  rewrite fmap_cons. unfold closed_at at 1.
  destruct (is_open_for (Some e) a) eqn:Ho.
  - apply is_open_for_spec in Ho as [He _].
    rewrite !filter_cons_False; [done| |]; unfold open_of; simpl; intros [? _]; congruence.
  - destruct (decide (open_of e' a)).
    + rewrite !filter_cons_True by done. by rewrite IH.
    + rewrite !filter_cons_False by done. done.
Qed.

Lemma length_filter_filter {A} (P Q : A → Prop)
    `{!∀ x, Decision (P x)} `{!∀ x, Decision (Q x)} (l : list A) :
  (length (filter P (filter Q l)) ≤ length (filter P l))%nat.
Proof.
  induction l as [|x l IH]; [done|].
  destruct (decide (Q x)), (decide (P x));
    rewrite ?(filter_cons_True Q), ?(filter_cons_False Q), ?(filter_cons_True P),
            ?(filter_cons_False P) by done; simpl; lia.
Qed.

Lemma run_call_assignments_unchanged (c : Call) (db : Database) :
  match c with
  | call_seed _ _ | call_add_position _ _ _ _ | call_add_employee _ _
  | call_delete_position _ | call_delete_employee _ => True
  | _ => False
  end →
  assignments (run_call c db).1 = assignments db.
Proof.
  destruct c as [y n|s t d par|code name|e p sd ed|e p d|i|i|i]; try done; intros _;
    cbn [run_call].
  - destruct (seed_quarter_scenarios_cases y n db)
      as [(e & _ & ->) | (params & _ & ->)]; [done|].
    by destruct (executemany_insert_or_ignore_spec params db) as (db' & ? & -> & _ & _ & ? & _).
  - unfold add_position.
    apply (with_connection_state (λ db', assignments db' = assignments db)); [done|].
    unfold insert_position. destruct s, t, d; try done; by destruct (_ && _).
  - unfold add_employee.
    apply (with_connection_state (λ db', assignments db' = assignments db)); [done|].
    unfold insert_employee. destruct code, name; try done; by destruct (existsb _ _).
Qed.

Lemma run_call_at_most_one_open (c : Call) (db : Database) :
  ¬ is_add_assignment c → at_most_one_open db → at_most_one_open (run_call c db).1.
Proof.
  intros Hc Hone e'.
  destruct c as [y n|s t d par|code name|e p sd ed|e p d|i|i|i];
    try (rewrite run_call_assignments_unchanged by done; apply Hone).
  - cbn [run_call]. unfold move_employee, with_connection.
    destruct (move_employee_on_cases _connect e p d db)
      as (db1 & Hclose & [(exn & _ & ->) | (e0 & p0 & d0 & -> & -> & -> & ->)]);
      [apply Hone|].
    injection Hclose as <-. simpl. rewrite filter_app.
    destruct (decide (e' = e0)) as [->|Hne].
    + change (λ a, if is_open_for (Some e0) a then set_end_date (Some d0) a else a)
        with (closed_at e0 d0).
      rewrite filter_open_closed. simpl. rewrite filter_cons_True by done. done.
    + change (λ a, if is_open_for (Some e0) a then set_end_date (Some d0) a else a)
        with (closed_at e0 d0).
      rewrite filter_open_other by done.
      rewrite filter_cons_False by (unfold open_of; simpl; intros [? _]; congruence).
      rewrite app_nil_r. apply Hone.
  - cbn [run_call]. unfold delete_assignment, with_connection. simpl.
    etrans; [apply length_filter_filter|apply Hone].
Qed.

(** X4. As long as [add_assignment] is not among the calls, no employee
    ever has two open assignments: the invariant holds in the fresh store
    and every other method keeps it, for all employees at once. *)
Theorem single_open_assignment_kept (calls : list Call) :
  Forall (λ c, ¬ is_add_assignment c) calls →
  at_most_one_open (run_calls calls empty_database).
Proof.
  unfold run_calls.
  assert (Hstart : at_most_one_open empty_database) by (intros e; simpl; lia).
  revert Hstart. generalize empty_database.
  induction calls as [|c calls IH]; intros db Hone Hcalls; [done|].
  apply Forall_cons in Hcalls as [Hc Hcalls].
  simpl. apply IH; [|done]. by apply run_call_at_most_one_open.
Qed.

Lemma single_open_assignment_kept_example :
  at_most_one_open
    (run_calls [call_seed 2024 1;
                call_add_position (Some 1) (Some "CEO") (Some "Executive") None;
                call_add_employee (Some "E001") (Some "Ada Lovelace");
                call_move_employee (Some 1) (Some 1) (Some "2024-01-01");
                call_move_employee (Some 1) (Some 1) (Some "2024-04-01");
                call_delete_assignment 1]
               empty_database).
Proof.
  apply single_open_assignment_kept.
  repeat (apply Forall_cons; split; [simpl; tauto|]). apply Forall_nil_2.
Defined.

(** X5. Deleting the assignment a move has just opened does not reopen
    anything: the rows the move closed stay closed at its date, and the
    employee is left without an open assignment. *)
Theorem delete_assignment_does_not_reopen (db : Database) (e p : Z) (d : string) :
  let db1 := (move_employee (Some e) (Some p) (Some d) db).1 in
  ∃ new,
    filter (open_of e) (assignments db1) = [new] ∧
    assignments (delete_assignment (Assignment.id new) db1).1
      = (closed_at e d <$> assignments db) ∧
    filter (open_of e) (assignments (delete_assignment (Assignment.id new) db1).1) = [].
Proof.
  rewrite move_employee_run. simpl. eexists. split.
  - rewrite filter_app, filter_open_closed. simpl. by rewrite filter_cons_True.
  - unfold delete_assignment, with_connection. simpl.
    rewrite filter_app, filter_cons_False by (simpl; auto). rewrite app_nil_r.
    rewrite filter_id_ne by apply new_rowid_fresh.
    split; [done|apply filter_open_closed].
Qed.

(** ** Seeding, year by year *)

Lemma date_new_first (y m : Z) :
  1 ≤ y ≤ 9999 → m = 1 ∨ m = 4 ∨ m = 7 ∨ m = 10 → date_new y m 1 = Ok (mkDate y m 1).
Proof.
  intros Hy Hm. unfold date_new. rewrite (bool_decide_eq_true_2 (1 ≤ y ≤ 9999)) by done.
  destruct Hm as [Hm|[Hm|[Hm|Hm]]]; by subst m.
Qed.

Lemma date_new_bad_year (y m d : Z) : ¬ (1 ≤ y ≤ 9999) → date_new y m d = Raise year_error.
Proof. intros Hy. unfold date_new. by rewrite (bool_decide_eq_false_2 (1 ≤ y ≤ 9999)). Qed.

Lemma quarter_params_Ok (y q : Z) :
  1 ≤ y ≤ 9998 → 1 ≤ q ≤ 4 →
  quarter_params y q =
    Ok ("FY" +:+ pretty y +:+ " Q" +:+ pretty q, y, q,
        isoformat (mkDate y ((q - 1) * 3 + 1) 1),
        isoformat (if bool_decide (q = 4) then mkDate (y + 1) 1 1
                   else mkDate y ((q - 1) * 3 + 4) 1)).
Proof.
  intros Hy Hq. unfold quarter_params, date_replace_day.
  rewrite date_new_first by lia. simpl.
  case_bool_decide; case_bool_decide; try lia.
  - rewrite !date_new_first by lia. simpl. by rewrite date_new_first by lia.
  - rewrite !date_new_first by lia. simpl. rewrite date_new_first by lia.
    simpl. do 4 f_equal. lia.
Qed.

Lemma year_params_Ok (y : Z) :
  1 ≤ y ≤ 9998 → mapM (quarter_params y) (range 1 5) = Ok (year_rows y).
Proof.
  intros Hy. change (range 1 5) with [1; 2; 3; 4]. simpl.
  rewrite (quarter_params_Ok y 1), (quarter_params_Ok y 2), (quarter_params_Ok y 3),
    (quarter_params_Ok y 4) by lia. reflexivity.
Qed.

Lemma year_params_Raise (y : Z) :
  ¬ (1 ≤ y ≤ 9998) → mapM (quarter_params y) (range 1 5) = Raise year_error.
Proof.
  intros Hy. destruct (decide (y = 9999)) as [->|Hne]; [reflexivity|].
  change (range 1 5) with [1; 2; 3; 4]. unfold mapM, quarter_params. simpl.
  rewrite !(date_new_bad_year y) by lia. reflexivity.
Qed.

Lemma mapM_result_cons {A B} (f : A → result B) (x : A) (l : list A) :
  mapM f (x :: l) = y ← f x; k ← mapM f l; mret (y :: k).
Proof. reflexivity. Qed.

Lemma mapM_years_Ok (years : list Z) :
  Forall (λ y, 1 ≤ y ≤ 9998) years →
  mapM (λ year, mapM (quarter_params year) (range 1 5)) years = Ok (year_rows <$> years).
Proof.
  induction 1 as [|y years Hy _ IH]; [done|].
  by rewrite mapM_result_cons, year_params_Ok, IH.
Qed.

Lemma mapM_years_Raise (years : list Z) :
  Exists (λ y, ¬ (1 ≤ y ≤ 9998)) years →
  mapM (λ year, mapM (quarter_params year) (range 1 5)) years = Raise year_error.
Proof.
  induction years as [|y years IH]; intros Hbad; [by apply Exists_nil in Hbad|].
  rewrite mapM_result_cons. destruct (decide (1 ≤ y ≤ 9998)) as [Hy|Hy].
  - rewrite year_params_Ok, IH; [done| |done].
    by apply Exists_cons in Hbad as [?|?].
  - by rewrite year_params_Raise.
Qed.



Lemma contiguous_years (k : nat) : ∀ y,
  contiguous (mjoin (year_rows <$> seqZ y (Z.of_nat k))).
Proof.
  induction k as [|k IH]; intros y; [done|].
  rewrite Nat2Z.inj_succ, seqZ_cons by lia.
  replace (Z.pred (Z.succ (Z.of_nat k))) with (Z.of_nat k) by lia.
  specialize (IH (Z.succ y)). destruct k as [|k].
  - simpl. repeat split.
  - rewrite Nat2Z.inj_succ, seqZ_cons in * by lia.
    rewrite !fmap_cons in *.
    change (mjoin (year_rows y :: ?l)) with (year_rows y ++ mjoin l).
    change (mjoin (year_rows (Z.succ y) :: ?l)) with (year_rows (Z.succ y) ++ mjoin l) in *.
    simpl in *. repeat split; try reflexivity; try apply IH.
Qed.

(** X7. The periods seeding builds follow one another without gap or
    overlap: each tuple's end date is the next tuple's start date, across
    the turn of the year as well. *)
Theorem seed_params_contiguous (current_year years : Z) (params : list ScenarioParams) :
  seed_params current_year years = Ok params → contiguous params.
Proof.
  unfold seed_params, range.
  destruct (decide (Forall (λ y, 1 ≤ y ≤ 9998)
                           (seqZ current_year (current_year + years - current_year))))
    as [Hgood|Hbad].
  - rewrite mapM_years_Ok by done. intros [= <-].
    destruct (decide (0 ≤ current_year + years - current_year)) as [Hlen|Hlen].
    + rewrite <- (Z2Nat.id (current_year + years - current_year)) by done.
      apply contiguous_years.
    + by rewrite seqZ_nil by lia.
  - apply not_Forall_Exists in Hbad; [|apply _]. by rewrite mapM_years_Raise.
Qed.

Lemma seed_params_contiguous_example :
  ∃ params, seed_params 2024 2 = Ok params ∧ length params = 8%nat ∧ contiguous params.
Proof.
  eexists. split; [reflexivity|]. split; [reflexivity|].
  apply (seed_params_contiguous 2024 2). reflexivity.
Defined.

(** ** Listing assignments *)

Lemma join_one_assignment (ps : list Position.t) (sid : Z) (a : Assignment.t) :
  NoDup (Position.id <$> ps) →
  (p ← ps;
   if bool_decide (Assignment.position_id a = Position.id p ∧ Position.scenario_id p = sid)
   then [a] else [])
  = if decide (Exists (λ p, Assignment.position_id a = Position.id p ∧
                            Position.scenario_id p = sid) ps)
    then [a] else [].
Proof.
  induction ps as [|p ps IH]; intros Hnd.
  - done.
  - rewrite fmap_cons in Hnd. apply NoDup_cons in Hnd as [Hp Hnd].
    rewrite bind_cons, (IH Hnd).
    destruct (decide (Exists _ ps)) as [He|He];
      destruct (decide (Exists _ (p :: ps))) as [He'|He'];
      case_bool_decide as Hc; simpl; try done.
    + exfalso. apply Exists_exists in He as (q & Hq & Hid & _). apply Hp.
      apply list_elem_of_fmap. exists q. split; [|done]. destruct Hc. congruence.
    + exfalso. apply He'. by right.
    + exfalso. apply He'. by right.
    + exfalso. by apply Exists_cons in He' as [?|?].
    + exfalso. apply He'. by left.
Qed.

Lemma join_positions_filter (sid : Z) (db : Database) :
  NoDup (Position.id <$> positions db) →
  join_positions sid db = filter (placed_in db sid) (assignments db).
Proof.
  intros Hnd. unfold join_positions.
  induction (assignments db) as [|a rows IH]; [done|].
  rewrite bind_cons, IH, (join_one_assignment _ _ _ Hnd).
  destruct (decide (placed_in db sid a)) as [Hin|Hout].
  - rewrite filter_cons_True by done. by rewrite decide_True by exact Hin.
  - rewrite filter_cons_False by done. by rewrite decide_False by exact Hout.
Qed.

Lemma string_leb_le a b : String.leb a b = true ↔ string_le a b.
Proof. unfold String.leb, string_le. by destruct (String.compare a b). Qed.

Lemma string_leb_trans a b c :
  String.leb a b = true → String.leb b c = true → String.leb a c = true.
Proof. rewrite !string_leb_le. apply string_le_trans. Qed.

(** X8. With position keys unique, the assignments listed for a scenario
    are exactly the stored assignments that name a position of that
    scenario, each once, latest start date first. *)
Theorem list_assignments_spec (db : Database) (sid : Z) :
  NoDup (Position.id <$> positions db) →
  list_assignments sid db ≡ₚ filter (placed_in db sid) (assignments db) ∧
  StronglySorted (λ a b, string_le (Assignment.start_date b) (Assignment.start_date a))
                 (list_assignments sid db).
Proof.
  intros Hnd. unfold list_assignments. split.
  - by rewrite stable_sort_perm, join_positions_filter.
  - eapply StronglySorted_weaken; [|apply stable_sort_sorted].
    + intros a b. apply string_leb_le.
    + intros a b. apply String.leb_total.
    + intros a b c H1 H2. by apply string_leb_trans with (Assignment.start_date b).
Qed.

Lemma list_assignments_spec_example :
  list_assignments 1 staff_db ≡ₚ filter (placed_in staff_db 1) (assignments staff_db) ∧
  StronglySorted (λ a b, string_le (Assignment.start_date b) (Assignment.start_date a))
                 (list_assignments 1 staff_db).
Proof.
  apply (list_assignments_spec staff_db 1).
  apply (bool_decide_unpack _). vm_compute. exact I.
Defined.

(** X9. After a position is deleted through [Database.delete_position],
    its assignments are still stored, but no listing of any scenario shows
    them any more. *)
Theorem delete_position_hides_assignments (db : Database) (i sid : Z) :
  let db' := (delete_position i db).1 in
  assignments db' = assignments db ∧
  Forall (λ a, Assignment.position_id a ≠ i) (list_assignments sid db').
Proof.
  rewrite delete_position_run. simpl. split; [done|].
  apply Forall_forall. intros a Ha. unfold list_assignments in Ha.
  rewrite stable_sort_perm in Ha. unfold join_positions in Ha. simpl in Ha.
  apply list_elem_of_bind in Ha as (a' & Ha & _).
  apply list_elem_of_bind in Ha as (p & Hcond & Hp).
  apply list_elem_of_filter in Hp as [Hp _].
  case_bool_decide as Hc; [|by apply elem_of_nil in Hcond].
  apply list_elem_of_singleton in Hcond as ->. destruct Hc. congruence.
Qed.

(** ** What the full chart shows *)

Lemma rooted_inv (ps : list Position.t) (i : Z) :
  rooted ps i →
  ∃ p, p ∈ ps ∧ Position.id p = i ∧
       (Position.parent_position_id p = None ∨
        ∃ q, Position.parent_position_id p = Some q ∧ rooted ps q).
Proof.
  intros [p Hp Hpar|p q Hp Hpar Hq]; exists p; (split; [done|]); (split; [done|]);
    [by left|right; by exists q].
Qed.

Section chart_rooted.
Context (ps : list Position.t) (children : gmap (option Z) (list Z)).
Hypothesis ids_unique : NoDup (Position.id <$> ps).
Hypothesis children_sorted :
  ∀ parent, default [] (children !! parent) = Position.id <$> siblings ps parent.

(** Below a rooted node only rooted positions are drawn. *)
Lemma insert_chart_node_rooted (limit : nat) :
  ∀ (i : Z) (item : Item),
    rooted ps i →
    _insert_chart_node limit i (index_by_id ps) children = Ok item →
    ∀ text, text ∈ item_texts item →
            ∃ q, q ∈ ps ∧ rooted ps (Position.id q) ∧ text = chart_label q.
Proof.
  induction limit as [|n IH]; intros i item Hi; simpl; [done|].
  destruct (index_by_id ps !! i) as [p|] eqn:Hp; simpl; [|done].
  rewrite children_sorted.
  destruct (mapM _ _) as [items|] eqn:Hitems; simpl; [|done]. intros [= <-] text.
  apply index_by_id_lookup in Hp as [Hp Hid]; [|done].
  simpl. intros [->|Hin]%elem_of_cons.
  - exists p. by rewrite Hid.
  - apply list_elem_of_In, in_flat_map in Hin as (item & Hitem & Hin).
    apply list_elem_of_In in Hitem, Hin.
    apply mapM_result_inv in Hitems.
    destruct (Forall2_elem_of_r _ _ _ _ Hitems Hitem) as (j & Hj & Hrun).
    apply list_elem_of_fmap in Hj as (c & -> & [Hc Hpar]%elem_of_siblings).
    apply (IH (Position.id c) item); [|done..].
    by apply rooted_under with i.
Qed.

(** Every rooted position is drawn: some call returns its item, and
    what that item holds is part of [labels]. *)
Lemma rooted_drawn (limit : nat) (items : list Item) (i : Z) :
  mapM (λ r, _insert_chart_node limit r (index_by_id ps) children)
       (Position.id <$> siblings ps None) = Ok items →
  rooted ps i →
  ∃ k item,
    _insert_chart_node k i (index_by_id ps) children = Ok item ∧
    ∀ text, text ∈ item_texts item → text ∈ flat_map item_texts items.
Proof.
  intros Hitems%mapM_result_inv.
  induction 1 as [p Hp Hpar|p q Hp Hpar Hq IH].
  - assert (Hroot : Position.id p ∈ (Position.id <$> siblings ps None)).
    { apply list_elem_of_fmap. exists p. split; [done|]. by apply elem_of_siblings. }
    clear Hp Hpar. revert items Hitems Hroot.
    induction (Position.id <$> siblings ps None) as [|r roots IHr]; intros items Hitems Hroot.
    + by apply elem_of_nil in Hroot.
    + apply Forall2_cons_inv_l in Hitems as (item & items' & Hitem & Hitems & ->).
      apply elem_of_cons in Hroot as [->|Hroot].
      * exists limit, item. split; [done|]. intros text Ht. simpl.
        apply elem_of_app. by left.
      * destruct (IHr items' Hitems Hroot) as (k & item' & Hrun & Hsub).
        exists k, item'. split; [done|]. intros text Ht. simpl.
        apply elem_of_app. right. by apply Hsub.
  - destruct IH as (k & item_q & Hrun & Hsub).
    destruct k as [|k]; simpl in Hrun; [done|].
    destruct (index_by_id ps !! q) as [pq|]; simpl in Hrun; [|done].
    rewrite children_sorted in Hrun.
    destruct (mapM _ _) as [kids|] eqn:Hkids; simpl in Hrun; [|done].
    injection Hrun as <-. apply mapM_result_inv in Hkids.
    assert (Hchild : Position.id p ∈ (Position.id <$> siblings ps (Some q))).
    { apply list_elem_of_fmap. exists p. split; [done|]. by apply elem_of_siblings. }
    assert (Hown : ∀ text, text ∈ flat_map item_texts kids →
                           text ∈ flat_map item_texts items).
    { intros text Ht. apply Hsub. simpl. by apply list_elem_of_further. }
    clear Hsub Hp Hpar Hq. revert kids Hkids Hchild Hown.
    induction (Position.id <$> siblings ps (Some q)) as [|c cs IHc];
      intros kids Hkids Hchild Hown.
    + by apply elem_of_nil in Hchild.
    + apply Forall2_cons_inv_l in Hkids as (item & kids' & Hitem & Hkids & ->).
      apply elem_of_cons in Hchild as [->|Hchild].
      * exists k, item. split; [done|]. intros text Ht. apply Hown. simpl.
        apply elem_of_app. by left.
      * apply (IHc kids' Hkids Hchild). intros text Ht. apply Hown. simpl.
        apply elem_of_app. by right.
Qed.

Lemma full_chart_labels (limit : nat) (items : list Item) (text : string) :
  mapM (λ r, _insert_chart_node limit r (index_by_id ps) children)
       (Position.id <$> siblings ps None) = Ok items →
  text ∈ flat_map item_texts items ↔
  ∃ q, q ∈ ps ∧ rooted ps (Position.id q) ∧ text = chart_label q.
Proof.
  intros Hitems. split.
  - intros Hin. apply list_elem_of_In, in_flat_map in Hin as (item & Hitem & Hin).
    apply list_elem_of_In in Hitem, Hin.
    destruct (Forall2_elem_of_r _ _ _ _ (mapM_result_inv _ _ _ Hitems) Hitem)
      as (j & Hj & Hrun).
    apply list_elem_of_fmap in Hj as (r & -> & [Hr Hpar]%elem_of_siblings).
    apply (insert_chart_node_rooted limit (Position.id r) item); [|done..].
    by apply rooted_top.
  - intros (q & Hq & Hrooted & ->).
    destruct (rooted_drawn limit items _ Hitems Hrooted) as (k & item & Hrun & Hsub).
    apply Hsub. destruct (insert_chart_node_text ps children ids_unique k _ _ Hrun)
      as (q' & Hq' & Hid & Htext).
    rewrite (same_id_same_position ps ids_unique q q') by done.
    rewrite <- Htext. destruct item. simpl. apply list_elem_of_here.
Qed.
End chart_rooted.

(** The full chart, in one equation. *)
Lemma refresh_chart_full (db : Database) (self : App) (sid : Z) (limit : nat) :
  scenario_id self = Some sid →
  NoDup (Position.id <$> positions db) →
  strip (chart_root self) = "" ∨ strip (chart_root self) = full_org_chart →
  ∃ children,
    (∀ parent, default [] (children !! parent)
               = Position.id <$> siblings (list_positions sid db) parent) ∧
    _refresh_chart limit self db =
      items ← mapM (λ r, _insert_chart_node limit r
                           (index_by_id (list_positions sid db)) children)
                   (Position.id <$> siblings (list_positions sid db) None);
      mret (with_chart_tree self items).
Proof.
  intros Hsid Hnd Hsel.
  pose proof (list_positions_NoDup sid db Hnd) as Hnd'.
  destruct (sort_children_spec _ Hnd') as (children & Hsort & Hch).
  exists children. split; [done|].
  unfold _refresh_chart. rewrite Hsid.
  destruct (list_positions sid db) as [|p0 ps0] eqn:Hps; [done|].
  rewrite <- Hch, Hsort. simpl.
  assert (negb (bool_decide (strip (chart_root self) = "")) &&
          negb (bool_decide (strip (chart_root self) = full_org_chart)) = false) as ->;
    [|done].
  destruct Hsel as [Hsel|Hsel]; rewrite (bool_decide_eq_true_2 _ Hsel); simpl;
    [done|apply andb_false_r].
Qed.

(** X10. When the full chart is drawn, the labels in it are exactly the
    labels of the positions that hang, through parent references, under a
    position without parent: every such position is shown, and a position
    whose chain of parents leads to a key outside the scenario's positions
    is left out. *)
Theorem full_chart_shows_rooted
    (db : Database) (self self' : App) (sid : Z) (limit : nat) :
  scenario_id self = Some sid →
  NoDup (Position.id <$> positions db) →
  strip (chart_root self) = "" ∨ strip (chart_root self) = full_org_chart →
  _refresh_chart limit self db = Ok self' →
  ∀ text,
    text ∈ rendered_labels self' ↔
    ∃ q, q ∈ list_positions sid db ∧
         rooted (list_positions sid db) (Position.id q) ∧
         text = Position.title q +:+ " (" +:+ Position.department q +:+ ")".
Proof.
  intros Hsid Hnd Hsel Hrun text.
  destruct (refresh_chart_full db self sid limit Hsid Hnd Hsel) as (children & Hch & Heq).
  rewrite Heq in Hrun.
  destruct (mapM _ _) as [items|] eqn:Hitems; [|done]. injection Hrun as <-.
  apply (full_chart_labels (list_positions sid db) children
           (list_positions_NoDup sid db Hnd) Hch limit items text Hitems).
Qed.

Lemma full_chart_shows_rooted_example :
  ∃ self',
    _refresh_chart 5 (chart_app "") chart_db = Ok self' ∧
    ∀ text,
      text ∈ rendered_labels self' ↔
      ∃ q, q ∈ list_positions 1 chart_db ∧
           rooted (list_positions 1 chart_db) (Position.id q) ∧
           text = Position.title q +:+ " (" +:+ Position.department q +:+ ")".
Proof.
  destruct (_refresh_chart 5 (chart_app "") chart_db) as [self'|e] eqn:Hrun;
    [|by vm_compute in Hrun].
  exists self'. split; [reflexivity|].
  apply (full_chart_shows_rooted chart_db (chart_app "") self' 1 5).
  - reflexivity.
  - apply (bool_decide_unpack _). vm_compute. exact I.
  - left. reflexivity.
  - exact Hrun.
Defined.

(** X11. After a position is deleted through [Database.delete_position],
    each position that reported to it is still listed, but no longer hangs
    under a parentless position: by X10 the full chart drops it, and with
    it whatever reported to it. *)
Theorem delete_position_cuts_subtree (db : Database) (x c : Position.t) (sid : Z) :
  NoDup (Position.id <$> positions db) →
  c ∈ positions db →
  Position.scenario_id c = sid →
  Position.parent_position_id c = Some (Position.id x) →
  Position.id c ≠ Position.id x →
  let ps' := list_positions sid (delete_position (Position.id x) db).1 in
  c ∈ ps' ∧ ¬ rooted ps' (Position.id c).
Proof.
  intros Hnd Hc Hsid Hpar Hne ps'.
  assert (Hps' : ∀ p, p ∈ ps' ↔
            p ∈ positions db ∧ Position.id p ≠ Position.id x ∧ Position.scenario_id p = sid).
  { intros p. unfold ps'. rewrite list_positions_perm, delete_position_run. simpl.
    rewrite !list_elem_of_filter. tauto. }
  split; [by apply Hps'|].
  intros (p & Hp & Hid & Hcase)%rooted_inv.
  apply Hps' in Hp as (Hp & _ & _).
  assert (p = c) as -> by (by apply (same_id_same_position (positions db) Hnd)).
  destruct Hcase as [Hnone|(q & Hq & Hrooted)]; [congruence|].
  assert (q = Position.id x) as -> by congruence.
  apply rooted_inv in Hrooted as (p' & Hp' & Hid' & _).
  apply Hps' in Hp' as (_ & Hne' & _). done.
Qed.

Lemma delete_position_cuts_subtree_example :
  let ps' := list_positions 1 (delete_position 1 chart_db).1 in
  Position.mk 2 1 "CTO" "Technology" (Some 1) ∈ ps' ∧ ¬ rooted ps' 2.
Proof.
  apply (delete_position_cuts_subtree chart_db
           (Position.mk 1 1 "CEO" "Executive" None)
           (Position.mk 2 1 "CTO" "Technology" (Some 1)) 1).
  - apply (bool_decide_unpack _). vm_compute. exact I.
  - apply list_elem_of_further, list_elem_of_here.
  - reflexivity.
  - reflexivity.
  - simpl. lia.
Defined.

(** ** The title cache *)

Lemma title_cache_snoc (ps : list Position.t) (p : Position.t) :
  title_cache (ps ++ [p]) = <[Position.title p := Position.id p]> (title_cache ps).
Proof. unfold title_cache. by rewrite foldl_app. Qed.

(** X12. A title resolves to the position listed last under it: the
    cache holds, for every title, the key of the last position of the
    listing that carries the title, and nothing for other texts. *)
Theorem title_cache_last (ps : list Position.t) (t : string) :
  title_cache ps !! t = Position.id <$> last (filter (λ p, Position.title p = t) ps).
Proof.
  induction ps as [|p ps IH] using rev_ind; [done|].
  rewrite title_cache_snoc, filter_app.
  destruct (decide (Position.title p = t)) as [Ht|Ht].
  - rewrite filter_cons_True by done. rewrite filter_nil, last_snoc. simpl.
    rewrite <- Ht. by rewrite lookup_insert_eq.
  - rewrite filter_cons_False by done. rewrite filter_nil, app_nil_r.
    by rewrite lookup_insert_ne.
Qed.

Lemma Permutation_singleton_eq {A} (l : list A) (x : A) : l ≡ₚ [x] → l = [x].
Proof. intros H. symmetry in H. by apply Permutation_singleton_l in H. Qed.

Lemma filter_none {A} (P : A → Prop) `{!∀ x, Decision (P x)} (l : list A) :
  (∀ x, x ∈ l → ¬ P x) → filter P l = [].
Proof.
  induction l as [|x l IH]; intros Hl; [done|].
  rewrite filter_cons_False by (apply Hl; left).
  apply IH. intros y Hy. apply Hl. by right.
Qed.

(** X13. Adding a position through the form under a title no position of
    the scenario carries yet: afterwards that title, typed with or without
    surrounding blanks, resolves to the new position. *)
Theorem add_position_then_resolve (self : App) (db : Database) (sid : Z) :
  scenario_id self = Some sid →
  strip (position_title self) ≠ "" →
  strip (position_department self) ≠ "" →
  (∀ p, p ∈ positions db → Position.scenario_id p = sid →
        Position.title p ≠ strip (position_title self)) →
  ∃ db' self' new,
    _add_position self db = (db', Ok self') ∧
    positions db' = positions db ++ [new] ∧
    Position.title new = strip (position_title self) ∧
    ∀ text, strip text = strip (position_title self) →
            _combo_value_to_id text (_positions_cache self') = Some (Position.id new).
Proof.
  intros Hsid Htitle Hdept Hfresh.
  unfold _add_position. rewrite Hsid.
  rewrite !bool_decide_eq_false_2 by done. simpl.
  eexists _, _, _. split; [reflexivity|]. split; [reflexivity|]. split; [reflexivity|].
  intros text Htext. unfold _combo_value_to_id. rewrite Htext.
  rewrite bool_decide_eq_false_2 by done. simpl. rewrite title_cache_last.
  match goal with |- context [positions db ++ [?n]] => set (new := n) end.
  match goal with |- context [list_positions sid ?d] => set (db' := d) end.
  assert (filter (λ p, Position.title p = strip (position_title self))
                 (list_positions sid db') = [new]) as ->; [|done].
  apply Permutation_singleton_eq.
  rewrite list_positions_perm. unfold db'. simpl.
  rewrite !filter_app.
  rewrite (filter_cons_True _ new) by done.
  rewrite (filter_cons_True _ new) by done. simpl.
  rewrite filter_none; [done|].
  intros p [Hs Hp]%list_elem_of_filter. by apply Hfresh.
Qed.

Lemma add_position_then_resolve_example :
  ∃ db' self' new,
    _add_position coo_form chart_db = (db', Ok self') ∧
    positions db' = positions chart_db ++ [new] ∧
    Position.title new = "COO" ∧
    ∀ text, strip text = "COO" →
            _combo_value_to_id text (_positions_cache self') = Some (Position.id new).
Proof.
  apply (add_position_then_resolve coo_form chart_db 1).
  - reflexivity.
  - by vm_compute.
  - by vm_compute.
  - intros p Hp _.
    repeat (apply elem_of_cons in Hp as [->|Hp]; [by vm_compute|]).
    by apply elem_of_nil in Hp.
Defined.

(** X14. The title cache stays in step with the file: when it holds the
    titles of the chosen scenario's listing, it still does after the
    position form was submitted or the selected position was deleted,
    and neither callback raises. *)
Theorem positions_cache_in_step (self : App) (db : Database) (sid : Z) :
  scenario_id self = Some sid →
  _positions_cache self = title_cache (list_positions sid db) →
  (∃ db' self',
     _add_position self db = (db', Ok self') ∧
     scenario_id self' = Some sid ∧
     _positions_cache self' = title_cache (list_positions sid db')) ∧
  (∀ selected, ∃ db' self',
     _delete_position self selected db = (db', Ok self') ∧
     scenario_id self' = Some sid ∧
     _positions_cache self' = title_cache (list_positions sid db')).
Proof.
  intros Hsid Hcache. split.
  - unfold _add_position. rewrite Hsid.
    destruct (bool_decide (strip (position_title self) = "")
              || bool_decide (strip (position_department self) = "")).
    + by eexists _, _.
    + eexists _, _. split; [reflexivity|].
      unfold _refresh_positions. simpl. by rewrite ?Hsid.
  - intros [|i selected]; simpl.
    + by eexists _, _.
    + eexists _, _. split; [reflexivity|].
      unfold _refresh_positions. by rewrite Hsid.
Qed.

Lemma positions_cache_in_step_example :
  (∃ db' self',
     _add_position coo_form chart_db = (db', Ok self') ∧
     scenario_id self' = Some 1 ∧
     _positions_cache self' = title_cache (list_positions 1 db')) ∧
  (∀ selected, ∃ db' self',
     _delete_position coo_form selected chart_db = (db', Ok self') ∧
     scenario_id self' = Some 1 ∧
     _positions_cache self' = title_cache (list_positions 1 db')).
Proof. apply (positions_cache_in_step coo_form chart_db 1); reflexivity. Defined.

(** ** The employee form *)

(** X15. Submitting the employee form never raises.  Either the file and
    the two fields stay as they were and one message box is shown (a
    field is blank, or the stripped code is taken), or the stripped code is
    new and one employee is appended under the stripped code and name, the
    fields are cleared, no box is shown and the name cache is that of the
    new directory. *)
Theorem add_employee_form (forms : Forms) (db : Database) :
  let code := strip (employee_code forms) in
  let name := strip (employee_name forms) in
  let db' := (_add_employee forms db).1 in
  let forms' := (_add_employee forms db).2 in
  (db' = db ∧
   (code = "" ∨ name = "" ∨ code ∈ Employee.employee_code <$> employees db) ∧
   employee_code forms' = employee_code forms ∧
   employee_name forms' = employee_name forms ∧
   ∃ box, message_boxes forms' = message_boxes forms ++ [box]) ∨
  (code ≠ "" ∧ name ≠ "" ∧ (code ∉ Employee.employee_code <$> employees db) ∧
   employees db' =
     employees db ++
     [Employee.mk (new_rowid Employee.id (seq_employees db) (employees db)) code name] ∧
   employee_code forms' = "" ∧ employee_name forms' = "" ∧
   message_boxes forms' = message_boxes forms ∧
   _employees_cache forms' = name_cache (list_employees db')).
Proof.
  intros code name. unfold _add_employee. fold code name.
  case_bool_decide as Hc; simpl.
  { left. repeat split; eauto. }
  case_bool_decide as Hn; simpl.
  { left. repeat split; eauto. }
  unfold add_employee, with_connection, insert_employee.
  destruct (existsb _ (employees db)) eqn:Hk; simpl.
  - left. apply code_taken_spec in Hk. repeat split; eauto.
  - right. repeat split; try done.
    intros Hin%code_taken_spec. congruence.
Qed.

(** ** The assignment form *)


(** ** Orders of the listings *)

Lemma period_leb_total a b : period_leb a b = true ∨ period_leb b a = true.
Proof.
  unfold period_leb.
  repeat case_bool_decide; simpl; auto; lia.
Qed.

Lemma period_leb_trans a b c :
  period_leb a b = true → period_leb b c = true → period_leb a c = true.
Proof.
  unfold period_leb.
  repeat case_bool_decide; simpl; auto; try discriminate; lia.
Qed.

Lemma period_leb_lt (a b : Z * Z) : period_leb a b = true → a ≠ b → period_lt a b.
Proof.
  unfold period_leb, period_lt. destruct a as [y q], b as [y' q']. simpl.
  intros Hle Hne. destruct (decide (y < y')) as [Hy|Hy]; [by left|]. right.
  rewrite (bool_decide_eq_false_2 _ Hy) in Hle. simpl in Hle.
  apply andb_true_iff in Hle as [H1 H2].
  apply bool_decide_eq_true in H1. apply bool_decide_eq_true in H2.
  split; [done|]. destruct (decide (q = q')); [congruence|lia].
Qed.

Lemma StronglySorted_strict {A B} (R R' : A → A → Prop) (f : A → B) (l : list A) :
  (∀ x y, R x y → f x ≠ f y → R' x y) →
  NoDup (f <$> l) → StronglySorted R l → StronglySorted R' l.
Proof.
  intros HR Hnd Hs. induction Hs as [|x l Hs IH Hall]; [constructor|].
  rewrite fmap_cons in Hnd. apply NoDup_cons in Hnd as [Hx Hnd].
  constructor; [by apply IH|].
  apply Forall_forall. intros y Hy. apply HR.
  - by apply (proj1 (Forall_forall _ _) Hall).
  - intros Heq. apply Hx. rewrite Heq. apply list_elem_of_fmap. by exists y.
Qed.

(** X17. In every store reached from a fresh one, the scenario listing
    holds each stored scenario once, in strictly chronological order: by
    year, then by quarter, no two at the same period. *)
Theorem list_scenarios_chronological (calls : list Call) :
  let db := run_calls calls empty_database in
  list_scenarios db ≡ₚ scenarios db ∧
  StronglySorted (λ s t, period_lt (scenario_period s) (scenario_period t))
                 (list_scenarios db).
Proof.
  intros db.
  assert (Hperm : list_scenarios db ≡ₚ scenarios db) by apply stable_sort_perm.
  split; [done|].
  apply (StronglySorted_strict
           (λ s t, period_leb (scenario_period s) (scenario_period t) = true)
           _ scenario_period).
  - intros s t. apply period_leb_lt.
  - rewrite Hperm. unfold db.
    by destruct (run_calls_wf calls empty_database wf_db_empty) as (_ & _ & _ & _ & ? & _).
  - apply stable_sort_sorted.
    + intros s t. apply period_leb_total.
    + intros s t u. apply period_leb_trans.
Qed.

Lemma stable_sort_by_string {A} (f : A → string) (l : list A) :
  StronglySorted (λ a b, string_le (f a) (f b))
                 (stable_sort (λ a b, String.leb (f a) (f b)) l).
Proof.
  eapply StronglySorted_weaken; [|apply stable_sort_sorted].
  - intros a b. apply string_leb_le.
  - intros a b. apply String.leb_total.
  - intros a b c H1 H2. by apply string_leb_trans with (f b).
Qed.

Lemma StronglySorted_fmap {A B} (R : B → B → Prop) (f : A → B) (l : list A) :
  StronglySorted (λ a b, R (f a) (f b)) l → StronglySorted R (f <$> l).
Proof.
  induction 1 as [|x l Hs IH Hall]; [constructor|].
  rewrite fmap_cons. constructor; [done|]. by apply Forall_fmap.
Qed.

(** X18. The employee listing and the two pick lists: the employee
    listing holds each employee once, by ascending name; the position pick
    list holds key and title of each position of the scenario once, by
    ascending title; the employee pick list holds key and name of each
    employee once, by ascending name. *)
Theorem pick_lists_ordered (db : Database) (sid : Z) :
  (list_employees db ≡ₚ employees db ∧
   StronglySorted (λ a b, string_le (Employee.full_name a) (Employee.full_name b))
                  (list_employees db)) ∧
  (bulk_positions sid db ≡ₚ
     (λ p, (Position.id p, Position.title p)) <$>
     filter (λ p, Position.scenario_id p = sid) (positions db) ∧
   StronglySorted (λ a b, string_le a.2 b.2) (bulk_positions sid db)) ∧
  (bulk_employees db ≡ₚ (λ e, (Employee.id e, Employee.full_name e)) <$> employees db ∧
   StronglySorted (λ a b, string_le a.2 b.2) (bulk_employees db)).
Proof.
  split; [|split]; split.
  - apply stable_sort_perm.
  - apply stable_sort_by_string.
  - unfold bulk_positions. by rewrite stable_sort_perm.
  - apply StronglySorted_fmap. simpl. apply stable_sort_by_string.
  - unfold bulk_employees. by rewrite stable_sort_perm.
  - apply StronglySorted_fmap. simpl. apply stable_sort_by_string.
Qed.

(** ** What the tables show after a deletion *)

(** A dict comprehension holds nothing under a key no element yields. *)
Lemma dict_lookup_None {A K V} `{Countable K} (key : A → K) (val : A → V)
    (l : list A) (k : K) :
  (∀ x, x ∈ l → key x ≠ k) →
  foldl (λ (m : gmap K V) x, <[key x := val x]> m) ∅ l !! k = None.
Proof.
  induction l as [|x l IH] using rev_ind; intros Hl; [done|].
  rewrite foldl_app. simpl. rewrite lookup_insert_ne.
  - apply IH. intros y Hy. apply Hl. apply elem_of_app. by left.
  - apply Hl. apply elem_of_app. right. by left.
Qed.

Lemma list_employees_elem (db : Database) (e : Employee.t) :
  e ∈ list_employees db ↔ e ∈ employees db.
Proof. unfold list_employees. by rewrite stable_sort_perm. Qed.

(** X19. After an employee is deleted through [Database.delete_employee],
    every assignment of that employee that the assignment table listed is
    still listed, now with an empty employee name. *)
Theorem delete_employee_blank_rows (db : Database) (sid i : Z) (a : Assignment.t) :
  a ∈ list_assignments sid db →
  Assignment.employee_id a = i →
  let db' := (delete_employee i db).1 in
  a ∈ list_assignments sid db' ∧
  ∃ title end_date,
    (Assignment.id a, "", title, Assignment.start_date a, end_date)
      ∈ assignment_rows sid db'.
Proof.
  intros Ha Hi. rewrite delete_employee_run. simpl.
  split; [exact Ha|].
  eexists _, _. unfold assignment_rows. apply list_elem_of_fmap.
  exists a. split; [|exact Ha].
  rewrite dict_lookup_None; [reflexivity|].
  intros e He%list_employees_elem. simpl in He.
  apply list_elem_of_filter in He as [He _]. congruence.
Qed.

Lemma delete_employee_blank_rows_example :
  let db' := (delete_employee 1 staff_db).1 in
  Assignment.mk 2 1 3 "2024-02-01" None ∈ list_assignments 1 db' ∧
  ∃ title end_date,
    (2, "", title, "2024-02-01", end_date) ∈ assignment_rows 1 db'.
Proof.
  apply (delete_employee_blank_rows staff_db 1 1 (Assignment.mk 2 1 3 "2024-02-01" None)).
  - assert (list_assignments 1 staff_db =
              [Assignment.mk 2 1 3 "2024-02-01" None;
               Assignment.mk 3 2 4 "2024-01-15" None;
               Assignment.mk 1 1 2 "2024-01-01" (Some "2024-02-01")]) as ->
      by reflexivity.
    apply list_elem_of_here.
  - reflexivity.
Defined.

(** X20. The "Reports To" column of the positions table: with keys
    unique, a row shows the title of the listed position its parent
    reference names, and nothing when the reference is empty or names no
    listed position. *)
Theorem reports_to_column (ps : list Position.t) (p : Position.t) :
  NoDup (Position.id <$> ps) →
  (∀ q, q ∈ ps → Position.parent_position_id p = Some (Position.id q) →
        position_row ps p =
          (Position.id p, Position.title p, Position.department p, Position.title q)) ∧
  ((∀ q, q ∈ ps → Position.parent_position_id p ≠ Some (Position.id q)) →
        position_row ps p =
          (Position.id p, Position.title p, Position.department p, "")).
Proof.
  intros Hnd. unfold position_row. split.
  - intros q Hq Hparent.
    destruct (head (filter _ ps)) as [q'|] eqn:Hhead.
    + apply head_Some_elem_of, list_elem_of_filter in Hhead as [Hid Hq'].
      assert (q' = q) as ->; [|done].
      apply (same_id_same_position ps); [done..|]. congruence.
    + apply head_None in Hhead.
      exfalso. eapply (filter_nil_not_elem_of _ ps q); [exact Hhead| |exact Hq].
      by rewrite Hparent.
  - intros Hnone. rewrite filter_none; [done|].
    intros q Hq Heq. by apply (Hnone q Hq).
Qed.

Lemma reports_to_column_example :
  (∀ q, q ∈ positions chart_db → Some 1 = Some (Position.id q) →
        position_row (positions chart_db) (Position.mk 2 1 "CTO" "Technology" (Some 1)) =
          (2, "CTO", "Technology", Position.title q)) ∧
  ((∀ q, q ∈ positions chart_db → Some 1 ≠ Some (Position.id q)) →
        position_row (positions chart_db) (Position.mk 2 1 "CTO" "Technology" (Some 1)) =
          (2, "CTO", "Technology", "")).
Proof.
  apply (reports_to_column (positions chart_db)
           (Position.mk 2 1 "CTO" "Technology" (Some 1))).
  apply (bool_decide_unpack _). vm_compute. exact I.
Defined.

(** X21. After a position is deleted through [Database.delete_position],
    a position of the scenario that reported to it keeps the reference in
    the file, and its row shows an empty "Reports To". *)
Theorem delete_position_blank_reports_to (db : Database) (sid i : Z) (c : Position.t) :
  c ∈ positions db →
  Position.scenario_id c = sid →
  Position.parent_position_id c = Some i →
  Position.id c ≠ i →
  let db' := (delete_position i db).1 in
  c ∈ positions db' ∧
  (Position.id c, Position.title c, Position.department c, "") ∈ position_rows sid db'.
Proof.
  intros Hc Hsid Hparent Hne. rewrite delete_position_run. simpl.
  assert (Hc' : c ∈ filter (λ p, Position.id p ≠ i) (positions db))
    by by apply list_elem_of_filter.
  split; [exact Hc'|].
  unfold position_rows. apply list_elem_of_fmap. exists c. split.
  - unfold position_row. rewrite filter_none; [done|].
    intros q Hq Heq. apply list_positions_elem in Hq. simpl in Hq.
    apply list_elem_of_filter in Hq as [Hq _]. congruence.
  - rewrite list_positions_perm. simpl. by apply list_elem_of_filter.
Qed.

Lemma delete_position_blank_reports_to_example :
  let db' := (delete_position 1 chart_db).1 in
  Position.mk 2 1 "CTO" "Technology" (Some 1) ∈ positions db' ∧
  (2, "CTO", "Technology", "") ∈ position_rows 1 db'.
Proof.
  apply (delete_position_blank_reports_to chart_db 1 1
           (Position.mk 2 1 "CTO" "Technology" (Some 1))).
  - apply list_elem_of_further, list_elem_of_here.
  - reflexivity.
  - reflexivity.
  - simpl. lia.
Defined.

(** X22. After the selected employee is deleted through the employees
    tab, the assignment form no longer takes that employee's name, unless
    another employee carries it: a move under the name changes nothing and
    shows a warning. *)
Theorem deleted_employee_not_assignable
    (self : App) (forms : Forms) (db : Database) (i : Z) (rest : list Z) :
  (∀ e, e ∈ employees db →
        Employee.full_name e = strip (assignment_employee forms) → Employee.id e = i) →
  ∃ db' forms',
    _delete_employee forms (i :: rest) db = (db', Ok forms') ∧
    _combo_value_to_id (assignment_employee forms') (_employees_cache forms') = None ∧
    ∃ t m, _move_employee self forms' db' = (db', Ok (show forms' (ShowWarning t m))).
Proof.
  intros Honly. unfold _delete_employee. rewrite delete_employee_run.
  eexists _, _. split; [reflexivity|].
  match goal with |- ?P ∧ _ => assert (Hnone : P) end.
  { unfold _combo_value_to_id. simpl. case_bool_decide; [done|].
    apply dict_lookup_None. intros e He%list_employees_elem. simpl in He.
    apply list_elem_of_filter in He as [Hid He]. intros Hname. by apply Hid, Honly. }
  split; [exact Hnone|].
  unfold _move_employee. destruct (scenario_id self); [|eauto].
  rewrite Hnone. simpl. eauto.
Qed.

Lemma deleted_employee_not_assignable_example :
  ∃ db' forms',
    _delete_employee staff_forms [1] staff_db = (db', Ok forms') ∧
    _combo_value_to_id (assignment_employee forms') (_employees_cache forms') = None ∧
    ∃ t m, _move_employee (chart_app "") forms' db'
           = (db', Ok (show forms' (ShowWarning t m))).
Proof.
  apply (deleted_employee_not_assignable (chart_app "") staff_forms staff_db 1 []).
  intros e He Hname.
  repeat (apply elem_of_cons in He as [->|He]; [try reflexivity; by vm_compute in Hname|]).
  by apply elem_of_nil in He.
Defined.

(** ** When a call raises *)


(** X23. A call of any method of [Database] that raises leaves the file
    exactly as it was. *)
Theorem failed_call_changes_nothing (c : Call) (db db' : Database) (e : Exception) :
  run_call c db = (db', Raise e) → db' = db.
Proof.
  destruct c; cbn [run_call];
    try (unfold add_position, add_employee, add_assignment, move_employee,
           delete_position, delete_employee, delete_assignment;
         match goal with
         | |- with_connection ?conn ?body db = _ → _ =>
             destruct (with_connection_cases conn body db)
               as [(db1 & a & _ & ->)|(db1 & e1 & _ & ->)]; congruence
         end).
  destruct (seed_quarter_scenarios_cases current_year years db)
    as [(e1 & _ & ->)|(params & _ & ->)]; [congruence|].
  destruct (executemany_insert_or_ignore_spec params db) as (db1 & ? & -> & _).
  congruence.
Qed.

Lemma failed_call_changes_nothing_example :
  (run_call (call_add_employee (Some "E001") (Some "Alan Turing")) staff_db).1 = staff_db.
Proof.
  destruct (run_call (call_add_employee (Some "E001") (Some "Alan Turing")) staff_db)
    as [db' [[]|e]] eqn:Hrun.
  - by vm_compute in Hrun.
  - exact (failed_call_changes_nothing _ _ _ _ Hrun).
Defined.


(** X25. Through the position form, a position never comes to report to
    a position of another scenario: with the title cache in step, the
    parent stored with the new position, if any, is a position of the
    chosen scenario that the file holds. *)
Theorem form_parent_in_scenario (self self' : App) (db db' : Database) (sid : Z) :
  scenario_id self = Some sid →
  _positions_cache self = title_cache (list_positions sid db) →
  _add_position self db = (db', Ok self') →
  ∀ p i, p ∈ positions db' → (p ∉ positions db) →
         Position.parent_position_id p = Some i →
         Position.scenario_id p = sid ∧
         ∃ q, q ∈ positions db ∧ Position.id q = i ∧ Position.scenario_id q = sid.
Proof.
  intros Hsid Hcache. unfold _add_position. rewrite Hsid.
  destruct (bool_decide (strip (position_title self) = "")
            || bool_decide (strip (position_department self) = "")).
  { intros [= <- _] p i Hp Hnew. done. }
  unfold add_position, with_connection, insert_position. simpl.
  intros [= <- _] p i Hp Hnew Hparent. simpl in Hp.
  apply elem_of_app in Hp as [Hp|Hp]; [done|].
  apply list_elem_of_singleton in Hp. subst p. simpl in Hparent.
  split; [done|].
  unfold _combo_value_to_id in Hparent.
  case_bool_decide; [done|]. rewrite Hcache in Hparent.
  apply title_cache_Some in Hparent as (q & Hq & _ & Hid).
  exists q. split; [by apply list_positions_elem in Hq|]. split; [done|].
  rewrite list_positions_perm in Hq. by apply list_elem_of_filter in Hq as [? _].
Qed.

Lemma form_parent_in_scenario_example :
  ∃ db' self',
    _add_position coo_form chart_db = (db', Ok self') ∧
    ∀ p i, p ∈ positions db' → (p ∉ positions chart_db) →
           Position.parent_position_id p = Some i →
           Position.scenario_id p = 1 ∧
           ∃ q, q ∈ positions chart_db ∧ Position.id q = i ∧ Position.scenario_id q = 1.
Proof.
  destruct (_add_position coo_form chart_db) as [db' [self'|e]] eqn:Hrun;
    [|by vm_compute in Hrun].
  exists db', self'. split; [reflexivity|].
  apply (form_parent_in_scenario coo_form self' chart_db db' 1);
    [reflexivity|reflexivity|exact Hrun].
Defined.

(** With keys pairwise different, a dict comprehension holds each
    element's value under its key. *)
Lemma dict_lookup_Some {A K V} `{Countable K} (key : A → K) (val : A → V)
    (l : list A) (x : A) :
  NoDup (key <$> l) → x ∈ l →
  foldl (λ (m : gmap K V) x, <[key x := val x]> m) ∅ l !! key x = Some (val x).
Proof.
  induction l as [|y l IH] using rev_ind; intros Hnd Hx; [by apply elem_of_nil in Hx|].
  rewrite fmap_app in Hnd. apply NoDup_app in Hnd as (Hnd & Hfresh & _).
  rewrite foldl_app. simpl.
  apply elem_of_app in Hx as [Hx|Hx].
  - rewrite lookup_insert_ne; [by apply IH|].
    intros Heq. apply (Hfresh (key x)).
    + apply list_elem_of_fmap. by exists x.
    + rewrite <- Heq. simpl. by left.
  - apply list_elem_of_singleton in Hx. subst y. by rewrite lookup_insert_eq.
Qed.

(** X26. With position keys unique, the position column of the
    assignment table is always looked up successfully: every listed
    assignment is shown with the title of the position of the scenario
    whose key it names. *)
Theorem assignment_rows_position (db : Database) (sid : Z) (a : Assignment.t) :
  NoDup (Position.id <$> positions db) →
  a ∈ list_assignments sid db →
  ∃ p name end_date,
    p ∈ positions db ∧ Position.id p = Assignment.position_id a ∧
    Position.scenario_id p = sid ∧
    (Assignment.id a, name, Position.title p, Assignment.start_date a, end_date)
      ∈ assignment_rows sid db.
Proof.
  intros Hnd Ha.
  assert (Hjoin : a ∈ join_positions sid db)
    by (unfold list_assignments in Ha; by rewrite stable_sort_perm in Ha).
  unfold join_positions in Hjoin.
  apply list_elem_of_bind in Hjoin as (a' & Hjoin & Ha').
  apply list_elem_of_bind in Hjoin as (p & Hcond & Hp).
  case_bool_decide as Hc; [|by apply elem_of_nil in Hcond].
  apply list_elem_of_singleton in Hcond. subst a'. destruct Hc as [Hid Hsid].
  exists p. eexists _, _. split; [done|]. split; [done|]. split; [done|].
  unfold assignment_rows. apply list_elem_of_fmap. exists a. split; [|exact Ha].
  rewrite Hid.
  rewrite (dict_lookup_Some Position.id Position.title (list_positions sid db) p).
  - reflexivity.
  - by apply list_positions_NoDup.
  - rewrite list_positions_perm. by apply list_elem_of_filter.
Qed.

Lemma assignment_rows_position_example :
  ∃ p name end_date,
    p ∈ positions staff_db ∧ Position.id p = 3 ∧ Position.scenario_id p = 1 ∧
    (2, name, Position.title p, "2024-02-01", end_date) ∈ assignment_rows 1 staff_db.
Proof.
  apply (assignment_rows_position staff_db 1 (Assignment.mk 2 1 3 "2024-02-01" None)).
  - apply (bool_decide_unpack _). vm_compute. exact I.
  - assert (list_assignments 1 staff_db =
              [Assignment.mk 2 1 3 "2024-02-01" None;
               Assignment.mk 3 2 4 "2024-01-15" None;
               Assignment.mk 1 1 2 "2024-01-01" (Some "2024-02-01")]) as ->
      by reflexivity.
    apply list_elem_of_here.
Defined.
